(** * Ding_talk_every_day.py: the delivery engine, embedded and verified

    A shallow embedding of [src/Ding_talk_every_day.py]: the queue pop
    ([pop_first_url]), the URL validator ([validate_image_url]), message
    composition and the delivery client ([send_markdown_with_image],
    [send_text], [_send_with_retry]), the configuration filter
    ([load_config]) and the orchestrator ([main]).

    Modelling conventions.
    - A Python [str] is the list of its Unicode code points
      ([str := list N]).  Literals of the source are written as Rocq
      strings and decoded from UTF-8 by [u].
    - The side effects of the program (log calls, transport calls, sleeps,
      file writes and renames, random draws, changes of directory) are
      threaded through an explicit [world]; every effect is appended to one
      [trace], in program order.  Of a log call the level and the format
      string are kept, not the arguments.
    - Exceptions are values: a computation returns [Ok v] or [Raise e], and
      [try ... except Exception] is a match on that result.
    - The file system is a finite map from paths to the texts of regular
      files, with POSIX line ends; reading a file that is there, writing
      and renaming succeed.  The parsed configuration file is part of the
      world, with values of the types the script expects ([json.load] and
      the chat library are not part of the script).
    - A float is the rational number it denotes ([Q]) and every float
      operation rounds its exact result to the nearest binary64 value,
      ties to even ([Float64.round64]); infinities and NaN do not occur,
      the floats of the script stay below 8.  [random.random()] is an
      oracle. *)

From stdpp Require Import base list gmap.
From Stdlib Require Strings.String Strings.Ascii.
Import String.StringSyntax.
Delimit Scope string_scope with string.
From Stdlib Require Import NArith ZArith QArith Qround Lia Lqa.

Local Open Scope N_scope.
Local Open Scope list_scope.

(* ===================================================================== *)
(** * Python strings *)
(* ===================================================================== *)

Module Py.

Abbreviation char := N.
Abbreviation str := (list N).

(** ** Literals: UTF-8 decoding of a Rocq string *)

Definition cont (b : N) : N := b mod 64.

Fixpoint utf8_decode (bs : list N) : str :=
  match bs with
  | [] => []
  | b0 :: r0 =>
      if b0 <? 128 then b0 :: utf8_decode r0
      else if b0 <? 224 then
        match r0 with
        | b1 :: r1 => ((b0 mod 32) * 64 + cont b1) :: utf8_decode r1
        | _ => []
        end
      else if b0 <? 240 then
        match r0 with
        | b1 :: b2 :: r2 =>
            ((b0 mod 16) * 4096 + cont b1 * 64 + cont b2) :: utf8_decode r2
        | _ => []
        end
      else
        match r0 with
        | b1 :: b2 :: b3 :: r3 =>
            ((b0 mod 8) * 262144 + cont b1 * 4096 + cont b2 * 64 + cont b3)
              :: utf8_decode r3
        | _ => []
        end
  end.

Definition u (s : String.string) : str :=
  utf8_decode (map Ascii.N_of_ascii (String.list_ascii_of_string s)).
Arguments u s%_string.

(** ** Prefix, suffix, substring *)

(** [s.startswith(p)] *)
Fixpoint startswith (p s : str) : bool :=
  match p, s with
  | [], _ => true
  | _ :: _, [] => false
  | x :: p', y :: s' => (x =? y) && startswith p' s'
  end.

(** [s.endswith(p)] *)
Definition endswith (p s : str) : bool := startswith (rev p) (rev s).

(** [needle in hay] *)
Fixpoint contains (needle hay : str) : bool :=
  startswith needle hay ||
  match hay with
  | [] => false
  | _ :: hay' => contains needle hay'
  end.

(** the number of positions of [hay] at which [needle] starts *)
Fixpoint occurrences (needle hay : str) : nat :=
  ((if startswith needle hay then 1 else 0) +
   match hay with
   | [] => 0
   | _ :: hay' => occurrences needle hay'
   end)%nat.

(** ** [str.lower]

    ASCII letters are folded.  Outside ASCII the two code points whose
    lower case contains an ASCII letter are mapped as CPython maps them
    (U+0130 to "i" followed by U+0307, U+212A KELVIN SIGN to "k"); every
    other non-ASCII code point lower-cases to non-ASCII code points and is
    left as it is, which cannot change a test [d in url.lower()] for an
    ASCII [d]. *)
Definition lower_char (c : char) : str :=
  if (65 <=? c) && (c <=? 90) then [c + 32]
  else if c =? 304 then [105; 775]
  else if c =? 8490 then [107]
  else [c].

Definition lower (s : str) : str := flat_map lower_char s.

(** ** [str.strip]: the code points for which [str.isspace] holds *)
Definition isspace (c : char) : bool :=
  ((9 <=? c) && (c <=? 13)) || ((28 <=? c) && (c <=? 32)) ||
  (c =? 133) || (c =? 160) || (c =? 5760) ||
  ((8192 <=? c) && (c <=? 8202)) || (c =? 8232) || (c =? 8233) ||
  (c =? 8239) || (c =? 8287) || (c =? 12288).

Fixpoint lstrip (s : str) : str :=
  match s with
  | [] => []
  | c :: s' => if isspace c then lstrip s' else s
  end.

Definition rstrip (s : str) : str := rev (lstrip (rev s)).

Definition strip (s : str) : str := rstrip (lstrip s).

(** ** [sep.join(parts)] *)
Fixpoint join (sep : str) (parts : list str) : str :=
  match parts with
  | [] => []
  | [p] => p
  | p :: rest => p ++ sep ++ join sep rest
  end.

(** ** [s.replace(old, new)]

    Left to right, non-overlapping.  [skip] counts the characters of a
    match that are still to be dropped.  For an empty [old] CPython puts
    [new] before every character and at the end. *)
Fixpoint replace_from (old new : str) (skip : nat) (s : str) : str :=
  match s with
  | [] => []
  | c :: s' =>
      match skip with
      | S k => replace_from old new k s'
      | O =>
          if startswith old s
          then new ++ replace_from old new (length old - 1) s'
          else c :: replace_from old new 0 s'
      end
  end.

Definition replace (old new s : str) : str :=
  match old with
  | [] => new ++ flat_map (fun c => c :: new) s
  | _ :: _ => replace_from old new 0 s
  end.

(** ** Iterating over a text file opened with universal newlines

    [for line in f]: a line ends after "\n", "\r" or "\r\n", each of which
    is handed to the program as "\n"; a last line without terminator is
    yielded as it is.  [cur] is the current line, reversed. *)
Definition LF : char := 10.
Definition CR : char := 13.

Fixpoint readlines_from (cur : str) (s : str) : list str :=
  match s with
  | [] => match cur with [] => [] | _ => [rev cur] end
  | c :: s' =>
      if c =? LF then rev (LF :: cur) :: readlines_from [] s'
      else if c =? CR then
        match s' with
        | c' :: s'' =>
            if c' =? LF then rev (LF :: cur) :: readlines_from [] s''
            else rev (LF :: cur) :: readlines_from [] s'
        | [] => [rev (LF :: cur)]
        end
      else readlines_from (c :: cur) s'
  end.

Definition readlines (s : str) : list str := readlines_from [] s.

(** truthiness of a string *)
Definition nonempty (s : str) : bool :=
  match s with [] => false | _ => true end.

End Py.

Import Py.

(* ===================================================================== *)
(** * Python floats: binary64, round to nearest, ties to even *)
(* ===================================================================== *)

Module Float64.

Local Open Scope Q_scope.

(** the nearest integer, ties to the even one *)
Definition rne (y : Q) : Z :=
  let f := Qfloor y in
  match Qcompare (y - inject_Z f) (1 # 2) with
  | Lt => f
  | Eq => if Z.even f then f else (f + 1)%Z
  | Gt => (f + 1)%Z
  end.

(** Every finite binary64 value is an integer multiple of 2^-1074. *)
Definition scale : Z := 2 ^ 1074.

(** For a magnitude [X], in units of 2^-1074: the binary logarithm of the
    distance between neighbouring binary64 values around [X].  It is 0
    up to 2^53 (the subnormal numbers and the first binade of the normal
    ones); above, 53 significant bits are kept. *)
Definition step (X : Q) : Z := Z.max 0 (Z.log2 (Qfloor X) - 52).

Definition nearest (X : Q) : Z :=
  (rne (X / inject_Z (2 ^ step X)) * 2 ^ step X)%Z.

(** The binary64 value nearest to [x]; there is no overflow to an
    infinity here, the floats of the script are far from it. *)
Definition round64 (x : Q) : Q :=
  Qred
    match Qcompare x 0 with
    | Lt => - (inject_Z (nearest (- x * inject_Z scale)) / inject_Z scale)
    | _ => inject_Z (nearest (x * inject_Z scale)) / inject_Z scale
    end.

(** [x + y] and [x * y] on floats; an [int] operand is converted first
    ([of_int]). *)
Definition fadd (x y : Q) : Q := round64 (x + y).
Definition fmul (x y : Q) : Q := round64 (x * y).
Definition of_int (n : Q) : Q := round64 n.

End Float64.

(* ===================================================================== *)
(** * Effects: the world, exceptions and the monad *)
(* ===================================================================== *)

Inductive level := DEBUG | INFO | WARNING | ERROR.

(** The exception classes the program meets; all of them are subclasses of
    [Exception]. *)
Inductive exn :=
  | FileNotFoundError
  | ValueError
  | JSONDecodeError
  | KeyError
  | TransportError.

Inductive result (A : Type) :=
  | Ok (a : A)
  | Raise (e : exn).
Arguments Ok {A} a.
Arguments Raise {A} e.

(** ** The chat-notification client library (dingtalkchatbot)

    The library is an external collaborator.  A call of one of its send
    methods either returns a value or raises.  Of a returned dict only the
    two keys the program reads are kept. *)
Module Chatbot.

(** [DingtalkChatbot(webhook, secret=secret)] *)
Record t := Build { webhook : str; secret : option str }.

Inductive pyval :=
  | PNone
  | PBool (b : bool)
  | PInt (z : Z)
  | PStr (s : str).

Inductive response :=
  | Dict (errcode errmsg : option pyval)
  | NotDict.

Inductive outcome :=
  | Returns (res : response)
  | Raises.

(** The keyword arguments a send method is invoked with. *)
Inductive request :=
  | send_markdown (title text : str) (at_mobiles : option (list str))
      (is_at_all : bool)
  | send_text (msg : str) (at_mobiles : option (list str)) (is_at_all : bool).

(** [v == 0] in Python ([False == 0] holds). *)
Definition eq_zero (v : pyval) : bool :=
  match v with
  | PInt z => Z.eqb z 0
  | PBool b => negb b
  | _ => false
  end.

End Chatbot.

(** ** The configuration file as [json.load] sees it

    A JSON object is kept as a record of its six optional keys, with values
    of the types the interface gives them; [secret] and [at_mobiles] may be
    [null]. *)
Module Config.

Record item := {
  webhook : option str;
  secret : option (option str);
  template : option str;
  title : option str;
  at_mobiles : option (option (list str));
  is_at_all : option bool
}.

Inductive entry :=
  | NotADict
  | Object (d : item).

Inductive source :=
  | Missing
  | Malformed
  | NotAList
  | Entries (l : list entry).

End Config.

Inductive event :=
  | EvLog (lvl : level) (fmt : str)
  | EvCall (bot : Chatbot.t) (req : Chatbot.request)
  | EvSleep (seconds : Q)
  | EvWrite (path data : str)
  | EvReplace (src dst : str)
  | EvChdir (path : str).

(** The state of everything outside the program.  [fs] holds the text
    files (path to content); [net k] is what the [k]-th transport invocation
    of the run does and [rng k] what the [k]-th call of [random.random()]
    returns; [calls] and [draws] count them.  The arguments of a log call
    are not part of its event, only its level and format string. *)
Record world := World {
  fs : gmap (list N) (list N);
  config_file : Config.source;
  cwd : str;
  net : nat -> Chatbot.outcome;
  rng : nat -> Q;
  calls : nat;
  draws : nat;
  trace : list event
}.

Definition set_fs (f : gmap (list N) (list N)) (w : world) : world :=
  World f (config_file w) (cwd w) (net w) (rng w) (calls w) (draws w) (trace w).
Definition set_cwd (d : str) (w : world) : world :=
  World (fs w) (config_file w) d (net w) (rng w) (calls w) (draws w) (trace w).
Definition set_calls (n : nat) (w : world) : world :=
  World (fs w) (config_file w) (cwd w) (net w) (rng w) n (draws w) (trace w).
Definition set_draws (n : nat) (w : world) : world :=
  World (fs w) (config_file w) (cwd w) (net w) (rng w) (calls w) n (trace w).
Definition emit (e : event) (w : world) : world :=
  World (fs w) (config_file w) (cwd w) (net w) (rng w) (calls w) (draws w)
    (trace w ++ [e]).

(** ** State and exceptions *)

Definition M (A : Type) : Type := world -> result A * world.

Definition ret {A} (a : A) : M A := fun w => (Ok a, w).

Definition bind {A B} (m : M A) (k : A -> M B) : M B :=
  fun w =>
    match m w with
    | (Ok a, w') => k a w'
    | (Raise e, w') => (Raise e, w')
    end.

Definition raise {A} (e : exn) : M A := fun w => (Raise e, w).

(** [try: m  except Exception as e: h e] *)
Definition try_except {A} (m : M A) (h : exn -> M A) : M A :=
  fun w =>
    match m w with
    | (Ok a, w') => (Ok a, w')
    | (Raise e, w') => h e w'
    end.

Declare Scope py_scope.
Delimit Scope py_scope with py.
Notation "x <- m ;; k" := (bind m (fun x => k))
  (at level 20, m at level 99, k at level 200, only parsing) : py_scope.
Notation "m ;; k" := (bind m (fun _ => k))
  (at level 100, k at level 200, only parsing, right associativity) : py_scope.
Local Open Scope py_scope.

(** ** Primitive effects *)

Definition log (lvl : level) (fmt : str) : M unit :=
  fun w => (Ok tt, emit (EvLog lvl fmt) w).

(** [time.sleep] *)
Definition sleep (seconds : Q) : M unit :=
  fun w => (Ok tt, emit (EvSleep seconds) w).

(** [random.uniform(a, b)], CPython's [a + (b - a) * self.random()].  At
    both call sites [a] and [b] are [int]s: [b - a] is an exact
    difference, and the product and the sum are float operations. *)
Definition uniform_value (a b r : Q) : Q :=
  Float64.fadd (Float64.of_int a) (Float64.fmul (Float64.of_int (b - a)) r).

Definition uniform (a b : Q) : M Q :=
  fun w => (Ok (uniform_value a b (rng w (draws w))), set_draws (S (draws w)) w).

(** one invocation of a send method of the library's bot *)
Definition invoke (bot : Chatbot.t) (req : Chatbot.request)
  : M Chatbot.response :=
  fun w =>
    let w' := emit (EvCall bot req) (set_calls (S (calls w)) w) in
    match net w (calls w) with
    | Chatbot.Returns res => (Ok res, w')
    | Chatbot.Raises => (Raise TransportError, w')
    end.

(** [os.path.exists] *)
Definition path_exists (path : str) : M bool :=
  fun w => (Ok (bool_decide (is_Some (fs w !! path))), w).

(** [with open(path, 'r', encoding='utf-8') as f], the whole text *)
Definition read_text (path : str) : M str :=
  fun w =>
    match fs w !! path with
    | Some data => (Ok data, w)
    | None => (Raise FileNotFoundError, w)
    end.

(** [with open(path, 'w', encoding='utf-8') as f: f.write(data)]; the file
    is created or truncated even when nothing is written. *)
Definition write_text (path data : str) : M unit :=
  fun w => (Ok tt, emit (EvWrite path data) (set_fs (<[path := data]> (fs w)) w)).

(** [os.replace(src, dst)]: one atomic rename, [dst] is overwritten. *)
Definition os_replace (src dst : str) : M unit :=
  fun w =>
    match fs w !! src with
    | Some data =>
        (Ok tt,
         emit (EvReplace src dst)
           (set_fs (<[dst := data]> (delete src (fs w))) w))
    | None => (Raise FileNotFoundError, w)
    end.

(** [d[key]] on a dict whose key may be absent *)
Definition getitem {A} (v : option A) : M A :=
  match v with
  | Some a => ret a
  | None => raise KeyError
  end.

(** [os.path.join(a, b)] on POSIX *)
Definition path_join (a b : str) : str :=
  if startswith [47] b then b
  else match rev a with
       | [] => b
       | c :: _ => if c =? 47 then a ++ b else a ++ [47] ++ b
       end.

(* ===================================================================== *)
(** * Constants of the script *)
(* ===================================================================== *)

Definition DEFAULT_TITLE : str := u "医疗安全提醒".
Definition DEFAULT_IMAGE_PLACEHOLDER : str := u "{IMAGE_URL}".
Definition PUSH_INTERVAL_MIN : Q := 1.
Definition PUSH_INTERVAL_MAX : Q := 3.
Definition MAX_RETRIES : nat := 3.
Definition INITIAL_RETRY_DELAY : Z := 1.

(* ===================================================================== *)
(** * class DingTalkBotEnhanced *)
(* ===================================================================== *)

Module DingTalkBotEnhanced.

Definition WHITELIST_DOMAINS : list str :=
  [u "alicdn.com"; u "qiniucdn.com"; u "aliyuncs.com";
   u "cdn."; u "img."; u "oss-"; u "yourcompany.com"].

Definition BLOCKED_DOMAINS : list str :=
  [u "github.com"; u "raw.githubusercontent.com";
   u "localhost"; u "127.0.0.1"].

Definition SUPPORTED_IMAGE_FORMATS : list str :=
  [u "jpg"; u "jpeg"; u "png"; u "gif"; u "webp"].

Definition ILLEGAL_CHARACTERS : list str :=
  [u " "; u "|"; u "{"; u "}"].

Record t := { bot : Chatbot.t }.

(** [__init__] *)
Definition init (webhook : str) (secret : option str) : M t :=
  if negb (contains (u "access_token") webhook) then raise ValueError
  else
    log INFO (u "✅ 钉钉机器人初始化成功 | 加签: %s");;
    ret {| bot := Chatbot.Build webhook secret |}.

(** ** The format check

    [re.search(r"\.(jpg|jpeg|png|gif|webp)$", url, re.IGNORECASE)].
    [ignorecase_match p c]: the character [c] matches the pattern literal
    [p] under IGNORECASE (for a [str] pattern the letters i, k and s also
    match U+0130 and U+0131, U+212A, U+017F).  ["$"] matches at the end of
    the string and before a newline that ends the string. *)
Definition ignorecase_match (p c : char) : bool :=
  if (97 <=? p) && (p <=? 122) then
    (c =? p) || (c =? p - 32) ||
    ((p =? 105) && ((c =? 304) || (c =? 305))) ||
    ((p =? 107) && (c =? 8490)) ||
    ((p =? 115) && (c =? 383))
  else c =? p.

Fixpoint ignorecase_startswith (p s : str) : bool :=
  match p, s with
  | [], _ => true
  | _ :: _, [] => false
  | x :: p', y :: s' => ignorecase_match x y && ignorecase_startswith p' s'
  end.

Definition match_before_end (pattern s : str) : bool :=
  let r := rev s in
  ignorecase_startswith (rev pattern) r ||
  match r with
  | c :: r' => (c =? LF) && ignorecase_startswith (rev pattern) r'
  | [] => false
  end.

Definition search_image_suffix (url : str) : bool :=
  existsb (fun ext => match_before_end (u "." ++ ext) url)
    SUPPORTED_IMAGE_FORMATS.

Definition MSG_NOT_HTTPS : str := u "❌ 非HTTPS协议（钉钉强制拦截HTTP）".
Definition MSG_BLOCKED : str := u "❌ 域名被钉钉屏蔽（如GitHub Raw）".
Definition MSG_BAD_FORMAT : str := u "❌ 非标准图片格式（需.jpg/.png等）".
Definition MSG_ILLEGAL_CHAR : str := u "❌ URL含非法字符（需URL编码）".
Definition MSG_PASSED : str := u "✅ URL校验通过".
Definition MSG_NOT_WHITELISTED : str :=
  u "⚠️ 域名未在推荐白名单中（可能无法显示）: %s".

(** [validate_image_url] *)
Definition validate_image_url (url : str) : M (bool * str) :=
  if negb (startswith (u "https://") url) then
    ret (false, MSG_NOT_HTTPS)
  else if existsb (fun block => contains block (lower url)) BLOCKED_DOMAINS
  then ret (false, MSG_BLOCKED)
  else
    (if negb (existsb (fun domain => contains domain url) WHITELIST_DOMAINS)
     then log WARNING MSG_NOT_WHITELISTED
     else ret tt);;
    if negb (search_image_suffix url) then ret (false, MSG_BAD_FORMAT)
    else if existsb (fun char => contains char url) ILLEGAL_CHARACTERS
    then ret (false, MSG_ILLEGAL_CHAR)
    else ret (true, MSG_PASSED).

(** ** The retry wrapper *)

(** [isinstance(res, dict) and res.get("errcode") == 0] *)
Definition is_success (res : Chatbot.response) : bool :=
  match res with
  | Chatbot.Dict (Some code) _ => Chatbot.eq_zero code
  | _ => false
  end.

(** [INITIAL_RETRY_DELAY * (2 ** retry) + random.uniform(0, 1)]: an
    exact [int] product, added to a float. *)
Definition retry_delay (retry : nat) (jitter : Q) : Q :=
  Float64.fadd
    (Float64.of_int (inject_Z (INITIAL_RETRY_DELAY * 2 ^ Z.of_nat retry)))
    jitter.

(** [if retry < MAX_RETRIES - 1: delay = ...; logger.info(...);
    time.sleep(delay)], the same in the [else] and the [except] branch *)
Definition wait_before_retry (retry : nat) : M unit :=
  if (retry <? MAX_RETRIES - 1)%nat then
    jitter <- uniform 0 1;;
    let delay := retry_delay retry jitter in
    log INFO (u "⏳ 等待 %.2f 秒后重试...");;
    sleep delay
  else ret tt.

(** One iteration of [for retry in range(MAX_RETRIES)]; the result says
    whether the iteration left the function with [return True]. *)
Definition attempt (self : t) (req : Chatbot.request) (retry : nat) : M bool :=
  try_except
    (res <- invoke (bot self) req;;
     if is_success res then
       log INFO (u "✅ 消息发送成功 | Webhook: %s");;
       ret true
     else
       log ERROR (u "❌ 发送失败: %s | Webhook: %s");;
       wait_before_retry retry;;
       ret false)
    (fun e =>
       log ERROR (u "❌ 发送过程异常: %s | Webhook: %s");;
       wait_before_retry retry;;
       ret false).

Fixpoint retry_loop (self : t) (req : Chatbot.request) (retries : list nat)
  : M bool :=
  match retries with
  | [] => ret false
  | retry :: rest =>
      sent <- attempt self req retry;;
      if sent then ret true else retry_loop self req rest
  end.

Definition _send_with_retry (self : t) (req : Chatbot.request) : M bool :=
  retry_loop self req (seq 0 MAX_RETRIES).

(** ** Sending *)

(** step 2 of [send_markdown_with_image]: the placeholder is replaced, or
    the image is appended *)
Definition compose (content img_url image_placeholder : str) : M str :=
  if contains image_placeholder content then
    log DEBUG (u "🖼️ 已替换占位符为: %s");;
    ret (replace image_placeholder img_url content)
  else
    log DEBUG (u "📎 无占位符，图片已追加到末尾");;
    ret (content ++ u "

![监控图](" ++ img_url ++ u ")").

Definition send_markdown_with_image (self : t) (title content img_url : str)
    (image_placeholder : str) (at_mobiles : option (list str))
    (is_at_all : bool) : M bool :=
  v <- validate_image_url img_url;;
  let '(is_valid, msg) := v in
  if negb is_valid then
    log ERROR msg;;
    ret false
  else
    log INFO msg;;
    content <- compose content img_url image_placeholder;;
    _send_with_retry self
      (Chatbot.send_markdown title content
         (if negb is_at_all then at_mobiles else None) is_at_all).

(** truthiness of [at_mobiles] *)
Definition truthy (at_mobiles : option (list str)) : bool :=
  match at_mobiles with
  | Some (_ :: _) => true
  | _ => false
  end.

Definition send_text (self : t) (msg : str) (at_mobiles : option (list str))
    (is_at_all : bool) : M bool :=
  let final_msg :=
    if is_at_all || truthy at_mobiles then
      (if is_at_all then u "@所有人 "
       else join (u " ")
              (map (fun m => u "@" ++ m) (default [] at_mobiles)) ++ u " ")
      ++ msg
    else msg in
  _send_with_retry self (Chatbot.send_text final_msg at_mobiles is_at_all).

(** ** The queue *)

(** [[line.strip() for line in f if line.strip()]] *)
Definition queue_lines (content : str) : list str :=
  map strip
    (List.filter (fun line => nonempty (strip line)) (readlines content)).

Definition pop_first_url (file_path : str) : M (option str) :=
  found <- path_exists file_path;;
  if negb found then
    log ERROR (u "❌ URL文件不存在: %s");;
    ret None
  else
    try_except
      (content <- read_text file_path;;
       match queue_lines content with
       | [] =>
           log WARNING (u "⚠️ URL文件为空");;
           ret None
       | current_url :: remaining =>
           let temp_path := file_path ++ u ".tmp" in
           write_text temp_path
             (match remaining with
              | [] => []
              | _ :: _ => join [LF] remaining ++ [LF]
              end);;
           os_replace temp_path file_path;;
           log INFO (u "✅ 已弹出URL: %s | 剩余: %d");;
           ret (Some current_url)
       end)
      (fun e =>
         log ERROR (u "❌ 读取URL文件失败: %s");;
         ret None).

End DingTalkBotEnhanced.

(* ===================================================================== *)
(** * Module level: configuration and the orchestrator *)
(* ===================================================================== *)

Section Script.

(** [os.path.dirname(os.path.abspath(__file__))] *)
Variable SCRIPT_DIR : str.

Definition CONFIG_DIR : str := path_join SCRIPT_DIR (u "config").
Definition CONFIG_FILE : str := path_join CONFIG_DIR (u "config.json").
Definition IMAGE_URL_FILE : str := path_join CONFIG_DIR (u "image.txt").

(** [with change_working_dir(path): body]; the [finally] clause restores
    the directory whether [body] returns or raises. *)
Definition change_working_dir {A} (path : str) (body : M A) : M A :=
  fun w =>
    let original_dir := cwd w in
    let '(r, w') := body (emit (EvChdir path) (set_cwd path w)) in
    (r, emit (EvChdir original_dir) (set_cwd original_dir w')).

(** [missing = [k for k in required_fields if k not in item]] *)
Definition missing_fields (item : Config.item) : list str :=
  (match Config.webhook item with Some _ => [] | None => [u "webhook"] end) ++
  (match Config.secret item with Some _ => [] | None => [u "secret"] end) ++
  (match Config.template item with Some _ => [] | None => [u "template"] end).

(** the three [item.setdefault] calls *)
Definition with_defaults (item : Config.item) : Config.item :=
  {| Config.webhook := Config.webhook item;
     Config.secret := Config.secret item;
     Config.template := Config.template item;
     Config.title :=
       Some (default DEFAULT_TITLE (Config.title item));
     Config.at_mobiles :=
       Some (default (Some []) (Config.at_mobiles item));
     Config.is_at_all :=
       Some (default false (Config.is_at_all item)) |}.

(** the body of [for idx, item in enumerate(config)] in [load_config] *)
Fixpoint validate_items (config : list Config.entry)
    (valid_config : list Config.item) : M (list Config.item) :=
  match config with
  | [] => ret valid_config
  | Config.NotADict :: rest =>
      log WARNING (u "⚠️ 第 %d 项不是字典格式，已跳过");;
      validate_items rest valid_config
  | Config.Object item :: rest =>
      match missing_fields item with
      | _ :: _ =>
          log WARNING (u "⚠️ 第 %d 项缺少字段: %s，已跳过");;
          validate_items rest valid_config
      | [] => validate_items rest (valid_config ++ [with_defaults item])
      end
  end.

Definition load_config : M (list Config.item) :=
  fun w =>
    match config_file w with
    | Config.Missing => (Raise FileNotFoundError, w)
    | Config.Malformed => (Raise JSONDecodeError, w)
    | Config.NotAList => (Raise ValueError, w)
    | Config.Entries config =>
        (valid_config <- validate_items config [];;
         log INFO (u "✅ 成功加载 %d/%d 个有效配置项");;
         ret valid_config) w
    end.

(** The [try] statement in the loop of step 3.  Its result is [None] when
    the [except] clause ran (it ends with [continue]) and [Some sent] when
    [send_markdown_with_image] returned [sent]. *)
Definition visit (img_url : str) (item : Config.item) : M (option bool) :=
  try_except
    (webhook <- getitem (Config.webhook item);;
     secret <- getitem (Config.secret item);;
     bot <- DingTalkBotEnhanced.init webhook secret;;
     title <- getitem (Config.title item);;
     content <- getitem (Config.template item);;
     at_mobiles <- getitem (Config.at_mobiles item);;
     is_at_all <- getitem (Config.is_at_all item);;
     sent <- DingTalkBotEnhanced.send_markdown_with_image bot title
               content img_url DEFAULT_IMAGE_PLACEHOLDER at_mobiles
               is_at_all;;
     ret (Some sent))
    (fun e =>
       _ <- getitem (Config.webhook item);;
       log ERROR (u "❌ 处理第 %d 项时出错: %s | Webhook: %s");;
       ret None).

(** The loop of step 3, [for idx, item in enumerate(config, 1)]; [idx]
    is used in log arguments only. *)
Fixpoint dispatch (img_url : str) (config : list Config.item)
    (success_count : nat) : M nat :=
  match config with
  | [] => ret success_count
  | item :: rest =>
      _ <- getitem (Config.webhook item);;
      log INFO (u "
[+] 处理第 %d 个配置项（Webhook: %s...）");;
      outcome <- visit img_url item;;
      match outcome with
      | None => dispatch img_url rest success_count
      | Some sent =>
          delay <- uniform PUSH_INTERVAL_MIN PUSH_INTERVAL_MAX;;
          log DEBUG (u "⏳ 等待 %.2f 秒后处理下一个配置项");;
          sleep delay;;
          dispatch img_url rest
            (if sent then S success_count else success_count)
      end
  end.

(** what stands inside [with change_working_dir(SCRIPT_DIR)] *)
Definition run : M Z :=
  log INFO (u "🚀 钉钉每日推送脚本启动");;
  img_url <- DingTalkBotEnhanced.pop_first_url IMAGE_URL_FILE;;
  match img_url with
  | None | Some [] =>
      log ERROR (u "❌ 无法获取图片URL，请检查文件: %s");;
      ret 1%Z
  | Some img_url =>
      log INFO (u "🎯 本次运行统一使用图片URL: %s");;
      config <- load_config;;
      match config with
      | [] =>
          log ERROR (u "❌ 没有有效配置项，程序退出");;
          ret 1%Z
      | _ :: _ =>
          success_count <- dispatch img_url config 0%nat;;
          log INFO (u "
[√] 任务完成！成功发送 %d/%d 条消息（共用1张图片）");;
          (if (success_count <? length config)%nat
           then log WARNING (u "⚠️ 部分消息发送失败，请检查日志")
           else ret tt);;
          log INFO (u "✅ 程序正常退出");;
          ret 0%Z
      end
  end.

(** [main] returns an [int]: what the [except] clause does (a log call and
    [return 1]) does not raise, see [main_handler_returns]. *)
Definition main : world -> Z * world :=
  fun w =>
    match
      try_except (change_working_dir SCRIPT_DIR run)
        (fun e =>
           log ERROR (u "❌ 主程序异常: %s");;
           ret 1%Z) w
    with
    | (Ok code, w') => (code, w')
    | (Raise _, w') => (1%Z, w')
    end.

End Script.

(* ===================================================================== *)
(** * Vocabulary of the specification *)
(* ===================================================================== *)

(** The text of a queue file that holds the lines [ls]: newline-joined
    with a trailing newline, and empty when there is no line. *)
Definition queue_text (ls : list str) : str :=
  match ls with
  | [] => []
  | _ :: _ => join [LF] ls ++ [LF]
  end.

(** A line as the queue keeps it: not empty, nothing left to strip, no
    line end inside. *)
Definition clean (l : str) : Prop :=
  l <> [] /\ strip l = l /\ (LF ∉ l) /\ (CR ∉ l).

(** The events of a trace that are not log calls. *)
Definition is_log (e : event) : bool :=
  match e with EvLog _ _ => true | _ => false end.

Definition effects (tr : list event) : list event :=
  List.filter (fun e => negb (is_log e)) tr.

(** The four tests of the validator that can fail, the allowlist test,
    and what the validator returns and logs, as functions of the URL. *)
Definition is_https (url : str) : bool := startswith (u "https://") url.

Definition is_blocked (url : str) : bool :=
  existsb (fun block => contains block (lower url))
    DingTalkBotEnhanced.BLOCKED_DOMAINS.

Definition is_whitelisted (url : str) : bool :=
  existsb (fun domain => contains domain url)
    DingTalkBotEnhanced.WHITELIST_DOMAINS.

Definition has_illegal_character (url : str) : bool :=
  existsb (fun char => contains char url)
    DingTalkBotEnhanced.ILLEGAL_CHARACTERS.

Definition validation (url : str) : bool * str :=
  if negb (is_https url) then (false, DingTalkBotEnhanced.MSG_NOT_HTTPS)
  else if is_blocked url then (false, DingTalkBotEnhanced.MSG_BLOCKED)
  else if negb (DingTalkBotEnhanced.search_image_suffix url)
  then (false, DingTalkBotEnhanced.MSG_BAD_FORMAT)
  else if has_illegal_character url
  then (false, DingTalkBotEnhanced.MSG_ILLEGAL_CHAR)
  else (true, DingTalkBotEnhanced.MSG_PASSED).

Definition after_validation (url : str) (w : world) : world :=
  if is_https url && negb (is_blocked url) && negb (is_whitelisted url)
  then emit (EvLog WARNING DingTalkBotEnhanced.MSG_NOT_WHITELISTED) w
  else w.

(** the image block that is appended when there is no placeholder *)
Definition image_block (img_url : str) : str :=
  u "

![监控图](" ++ img_url ++ u ")".

(** A transport invocation fails when it raises or returns anything but
    a dict whose "errcode" equals 0. *)
Definition failed (o : Chatbot.outcome) : bool :=
  match o with
  | Chatbot.Returns res => negb (DingTalkBotEnhanced.is_success res)
  | Chatbot.Raises => true
  end.

(** The world after a failed attempt number [retry]: the call, the error
    log and, unless the attempt was the last one, a draw, a log and the
    sleep. *)
Definition after_wait (retry : nat) (w : world) : world :=
  if (retry <? MAX_RETRIES - 1)%nat then
    emit (EvSleep
            (DingTalkBotEnhanced.retry_delay retry
               (uniform_value 0 1 (rng w (draws w)))))
      (emit (EvLog INFO (u "⏳ 等待 %.2f 秒后重试..."))
         (set_draws (S (draws w)) w))
  else w.

Definition called (bot : Chatbot.t) (req : Chatbot.request) (w : world)
  : world :=
  emit (EvCall bot req) (set_calls (S (calls w)) w).

Definition failure_message (o : Chatbot.outcome) : str :=
  match o with
  | Chatbot.Returns _ => u "❌ 发送失败: %s | Webhook: %s"
  | Chatbot.Raises => u "❌ 发送过程异常: %s | Webhook: %s"
  end.

Definition after_failure (bot : Chatbot.t) (req : Chatbot.request)
    (retry : nat) (w : world) : world :=
  after_wait retry
    (emit (EvLog ERROR (failure_message (net w (calls w)))) (called bot req w)).

Definition after_success (bot : Chatbot.t) (req : Chatbot.request)
    (w : world) : world :=
  emit (EvLog INFO (u "✅ 消息发送成功 | Webhook: %s")) (called bot req w).

(** [n] failed attempts, numbered from [retry], each followed by its
    sleep; [draw] is the index of the next random draw. *)
Fixpoint backoff (bot : Chatbot.t) (req : Chatbot.request) (rng : nat -> Q)
    (draw retry n : nat) : list event :=
  match n with
  | O => []
  | S n' =>
      EvCall bot req
        :: EvSleep (DingTalkBotEnhanced.retry_delay retry
                      (uniform_value 0 1 (rng draw)))
        :: backoff bot req rng (S draw) (S retry) n'
  end.

(** what a run has added to the trace *)
Definition added (w w' : world) : list event :=
  drop (length (trace w)) (trace w').

(** The text [send_markdown_with_image] sends, and what it logs while
    composing it. *)
Definition composed (content img_url image_placeholder : str) : str :=
  if contains image_placeholder content
  then replace image_placeholder img_url content
  else content ++ image_block img_url.

Definition compose_log (content image_placeholder : str) : str :=
  if contains image_placeholder content
  then u "🖼️ 已替换占位符为: %s"
  else u "📎 无占位符，图片已追加到末尾".

(** What stays as it is while messages are sent: the files, the
    configuration, the directory and the two oracles. *)
Definition stable (w w' : world) : Prop :=
  fs w' = fs w /\ config_file w' = config_file w /\ cwd w' = cwd w /\
  net w' = net w /\ rng w' = rng w.

(** A configuration entry as [load_config] hands it on: all six keys. *)
Definition destination (webhook : str) (secret : option str)
    (template title : str) (at_mobiles : option (list str))
    (is_at_all : bool) : Config.item :=
  {| Config.webhook := Some webhook; Config.secret := Some secret;
     Config.template := Some template; Config.title := Some title;
     Config.at_mobiles := Some at_mobiles;
     Config.is_at_all := Some is_at_all |}.

Inductive complete : Config.item -> Prop :=
  | complete_destination webhook secret template title at_mobiles is_at_all :
      complete (destination webhook secret template title at_mobiles is_at_all).

Definition MSG_PROCESSING : str := u "
[+] 处理第 %d 个配置项（Webhook: %s...）".

(** The world in which the next destination is processed, after the
    pacing sleep that follows a send. *)
Definition pace_delay (w : world) : Q :=
  uniform_value PUSH_INTERVAL_MIN PUSH_INTERVAL_MAX (rng w (draws w)).

Definition paced (w : world) : world :=
  emit (EvSleep (pace_delay w))
    (emit (EvLog DEBUG (u "⏳ 等待 %.2f 秒后处理下一个配置项"))
       (set_draws (S (draws w)) w)).

(** The world in which a destination's client has been constructed. *)
Definition constructed (w : world) : world :=
  emit (EvLog INFO (u "✅ 钉钉机器人初始化成功 | 加签: %s"))
    (emit (EvLog INFO MSG_PROCESSING) w).

(** The world after the construction of a destination's client failed. *)
Definition skipped (w : world) : world :=
  emit (EvLog ERROR (u "❌ 处理第 %d 项时出错: %s | Webhook: %s"))
    (emit (EvLog INFO MSG_PROCESSING) w).

Definition constructible (webhook : str) : bool :=
  contains (u "access_token") webhook.

(** The first line of the queue, if the file is there and has one. *)
Definition queue_head (files : gmap (list N) (list N)) (path : str)
  : option str :=
  match files !! path with
  | Some content => head (DingTalkBotEnhanced.queue_lines content)
  | None => None
  end.

(** What [load_config] keeps of an entry, and of the whole file; [None]
    stands for the cases in which it raises. *)
Definition accepted_item (e : Config.entry) : option Config.item :=
  match e with
  | Config.NotADict => None
  | Config.Object item =>
      match missing_fields item with
      | [] => Some (with_defaults item)
      | _ :: _ => None
      end
  end.

Definition valid_config (src : Config.source) : option (list Config.item) :=
  match src with
  | Config.Entries config => Some (omap accepted_item config)
  | _ => None
  end.

(** How the run ends, given what the queue and the configuration hold:
    [Some code] when [run] returns [code], [None] when an exception
    escapes from it. *)
Definition expected_outcome (popped : option str)
    (loaded : option (list Config.item)) : option Z :=
  match popped with
  | None => Some 1%Z
  | Some _ =>
      match loaded with
      | None => None
      | Some [] => Some 1%Z
      | Some (_ :: _) => Some 0%Z
      end
  end.

(** ** Vocabulary for the further properties *)

(** [n] pops of the same file in a row; the results, first pop first. *)
Fixpoint pop_times (n : nat) (file_path : str) (w : world)
  : list (option str) * world :=
  match n with
  | O => ([], w)
  | S n' =>
      match DingTalkBotEnhanced.pop_first_url file_path w with
      | (Ok popped, w') =>
          let '(later, w'') := pop_times n' file_path w' in
          (popped :: later, w'')
      | (Raise _, w') => ([], w')
      end
  end.

(** The transport calls and the sleeps of a trace. *)
Definition is_call (e : event) : bool :=
  match e with EvCall _ _ => true | _ => false end.

Definition transport_calls (tr : list event) : list event :=
  List.filter is_call tr.

Fixpoint slept (tr : list event) : Q :=
  match tr with
  | [] => 0
  | EvSleep seconds :: tr' => seconds + slept tr'
  | _ :: tr' => slept tr'
  end.

(** The transport call that the loop makes for a destination. *)
Definition call_for (img_url : str) (item : Config.item) : option event :=
  match Config.webhook item, Config.secret item, Config.template item,
        Config.title item, Config.at_mobiles item, Config.is_at_all item with
  | Some webhook, Some secret, Some template, Some title, Some at_mobiles,
    Some is_at_all =>
      Some (EvCall (Chatbot.Build webhook secret)
              (Chatbot.send_markdown title
                 (composed template img_url DEFAULT_IMAGE_PLACEHOLDER)
                 (if is_at_all then None else at_mobiles) is_at_all))
  | _, _, _, _, _, _ => None
  end.

(** The destinations whose client can be constructed. *)
Definition reachable (config : list Config.item) : list Config.item :=
  List.filter
    (fun item =>
       match Config.webhook item with
       | Some webhook => constructible webhook
       | None => false
       end) config.


(** The warnings of a trace. *)
Definition is_warning (e : event) : bool :=
  match e with EvLog WARNING _ => true | _ => false end.

(** ** Sample worlds, for the concrete instances *)

Definition sample_queue : str := u "https://cdn.example.com/a.jpg
https://cdn.example.com/b.jpg".

Definition always (o : Chatbot.outcome) : nat -> Chatbot.outcome := fun _ => o.

Definition accepts : Chatbot.outcome :=
  Chatbot.Returns (Chatbot.Dict (Some (Chatbot.PInt 0)) None).

Definition rejects : Chatbot.outcome :=
  Chatbot.Returns
    (Chatbot.Dict (Some (Chatbot.PInt 310000)) (Some (Chatbot.PStr (u "sign not match")))).

(** a transport that raises, then answers with an error, then accepts *)
Definition flaky (k : nat) : Chatbot.outcome :=
  match k with
  | 0%nat => Chatbot.Raises
  | 1%nat => rejects
  | _ => accepts
  end.

Definition sample_bot : DingTalkBotEnhanced.t :=
  {| DingTalkBotEnhanced.bot :=
       Chatbot.Build (u "https://oapi.dingtalk.com/robot/send?access_token=t")
         None |}.

Definition good_webhook : str :=
  u "https://oapi.dingtalk.com/robot/send?access_token=t".

Definition bad_webhook : str := u "https://example.com/hook".

Definition sample_destination (webhook : str) : Config.item :=
  destination webhook None (u "Today: {IMAGE_URL}") DEFAULT_TITLE (Some [])
    false.

Definition sample_url : str := u "https://cdn.example.com/a.jpg".

Definition sample_world (files : gmap (list N) (list N))
    (config : Config.source) (transport : nat -> Chatbot.outcome) : world :=
  World files config (u "/") transport (fun _ => 1 # 2) 0 0 [].

(* ===================================================================== *)
(** * Laws of the monad *)
(* ===================================================================== *)

Section MonadLaws.

Context {A B : Type}.
Implicit Types (m : M A) (k : A -> M B) (h : exn -> M A) (w : world).

Lemma bind_ret (a : A) k w : bind (ret a) k w = k a w.
Proof. reflexivity. Qed.

Lemma bind_raise (e : exn) k w : bind (raise e) k w = (Raise e, w).
Proof. reflexivity. Qed.

Lemma bind_ok m k w a w' : m w = (Ok a, w') -> bind m k w = k a w'.
Proof. intros H. unfold bind. by rewrite H. Qed.

Lemma bind_raised m k w e w' :
  m w = (Raise e, w') -> bind m k w = (Raise e, w').
Proof. intros H. unfold bind. by rewrite H. Qed.

Lemma try_except_ok m h w a w' :
  m w = (Ok a, w') -> try_except m h w = (Ok a, w').
Proof. intros H. unfold try_except. by rewrite H. Qed.

Lemma try_except_raised m h w e w' :
  m w = (Raise e, w') -> try_except m h w = h e w'.
Proof. intros H. unfold try_except. by rewrite H. Qed.

End MonadLaws.

Lemma bind_log {B} lvl fmt (k : unit -> M B) w :
  bind (log lvl fmt) k w = k tt (emit (EvLog lvl fmt) w).
Proof. reflexivity. Qed.

Lemma bind_sleep {B} seconds (k : unit -> M B) w :
  bind (sleep seconds) k w = k tt (emit (EvSleep seconds) w).
Proof. reflexivity. Qed.

Lemma bind_uniform {B} a b (k : Q -> M B) w :
  bind (uniform a b) k w =
  k (uniform_value a b (rng w (draws w))) (set_draws (S (draws w)) w).
Proof. reflexivity. Qed.

(* ===================================================================== *)
(** * Facts about Python strings *)
(* ===================================================================== *)

Section StringFacts.

Implicit Types (s p old new : str) (c : char).

Lemma startswith_app p s : startswith p (p ++ s) = true.
Proof. induction p as [|x p IH]; simpl; [done|]. by rewrite N.eqb_refl. Qed.

Lemma startswith_inv p s :
  startswith p s = true -> exists t, s = p ++ t.
Proof.
  revert s. induction p as [|x p IH]; intros s H; simpl in *.
  - by exists s.
  - destruct s as [|y s]; [done|].
    apply andb_prop in H as [Hxy Hp]. apply N.eqb_eq in Hxy as ->.
    destruct (IH _ Hp) as [t ->]. by exists t.
Qed.

Lemma startswith_nil_r p : startswith p [] = true -> p = [].
Proof. by destruct p. Qed.

Lemma contains_cons_false needle c hay :
  contains needle (c :: hay) = false ->
  startswith needle (c :: hay) = false /\ contains needle hay = false.
Proof.
  cbn [contains]. intros H. by apply orb_false_elim in H.
Qed.

Lemma contains_startswith needle hay :
  startswith needle hay = true -> contains needle hay = true.
Proof. intros H. destruct hay; simpl; by rewrite H. Qed.

Lemma contains_app needle pre post :
  contains needle (pre ++ needle ++ post) = true.
Proof.
  induction pre as [|c pre IH]; simpl.
  - apply contains_startswith, startswith_app.
  - rewrite IH. apply orb_true_r.
Qed.

Lemma contains_inv needle hay :
  contains needle hay = true -> exists pre post, hay = pre ++ needle ++ post.
Proof.
  induction hay as [|c hay IH]; simpl; intros H.
  - rewrite orb_false_r in H. apply startswith_nil_r in H as ->.
    by exists [], [].
  - apply orb_prop in H as [H|H].
    + destruct (startswith_inv _ _ H) as [t Ht]. exists [], t. by rewrite Ht.
    + destruct (IH H) as (pre & post & ->). by exists (c :: pre), post.
Qed.

(** a single character is in a string iff it is one of its elements *)
Lemma contains_char c s : contains [c] s = false -> c ∉ s.
Proof.
  induction s as [|y s IH]; intros H.
  - apply not_elem_of_nil.
  - apply contains_cons_false in H as [H1 H2]. simpl in H1.
    rewrite andb_true_r in H1. apply N.eqb_neq in H1.
    apply not_elem_of_cons. split; [done|]. by apply IH.
Qed.

Lemma occurrences_pos needle hay :
  contains needle hay = true <-> (0 < occurrences needle hay)%nat.
Proof.
  induction hay as [|c hay IH]; simpl.
  - rewrite orb_false_r. destruct (startswith needle []); split; (done || lia).
  - destruct (startswith needle (c :: hay)); simpl.
    + split; [lia|done].
    + apply IH.
Qed.

Lemma occurrences_none needle hay :
  contains needle hay = false <-> occurrences needle hay = 0%nat.
Proof.
  pose proof (occurrences_pos needle hay) as H.
  destruct (contains needle hay).
  - split; [done|]. intros E. assert (0 < occurrences needle hay)%nat by (by apply H). lia.
  - split; [|done]. intros _.
    destruct (occurrences needle hay); [done|].
    assert (false = true) by (apply H; lia). done.
Qed.

Lemma occurrences_app_le needle pre hay :
  (occurrences needle hay <= occurrences needle (pre ++ hay))%nat.
Proof. induction pre as [|c pre IH]; simpl; lia. Qed.

(** ** [replace] *)

Lemma replace_from_cons old new c s :
  replace_from old new 0 (c :: s) =
  if startswith old (c :: s)
  then new ++ replace_from old new (length old - 1) s
  else c :: replace_from old new 0 s.
Proof. reflexivity. Qed.

Lemma replace_from_skip old new k s :
  replace_from old new k s = replace_from old new 0 (drop k s).
Proof.
  revert k. induction s as [|c s IH]; intros [|k]; try done.
  simpl replace_from at 1. by rewrite IH.
Qed.

(** A text without occurrence of [old] is left as it is. *)
Lemma replace_from_absent old new s :
  old <> [] -> contains old s = false -> replace_from old new 0 s = s.
Proof.
  intros Hold. induction s as [|c s IH]; [done|]. intros H.
  apply contains_cons_false in H as [H1 H2].
  rewrite replace_from_cons, H1. f_equal. by apply IH.
Qed.

Lemma tail_of_match old c s post :
  old <> [] -> c :: s = old ++ post ->
  drop (length old - 1) s = post /\ exists m, s = m ++ post.
Proof.
  destruct old as [|a old']; [done|]. intros _ H.
  simpl in H. injection H as -> ->. simpl. rewrite Nat.sub_0_r.
  split; [by rewrite drop_app_length|by exists old'].
Qed.

Lemma replace_from_single old new s :
  old <> [] -> occurrences old s = 1%nat ->
  exists pre post,
    s = pre ++ old ++ post /\ replace_from old new 0 s = pre ++ new ++ post.
Proof.
  intros Hold. induction s as [|c s IH].
  - simpl. destruct old; [done|]. discriminate.
  - cbn [occurrences]. intros Hocc.
    destruct (startswith old (c :: s)) eqn:Hst.
    + assert (Hrest : occurrences old s = 0%nat) by lia.
      destruct (startswith_inv _ _ Hst) as [post Hpost].
      destruct (tail_of_match _ _ _ _ Hold Hpost) as [Hdrop [m Hm]].
      exists [], post. split; [done|].
      rewrite replace_from_cons, Hst, replace_from_skip, Hdrop.
      simpl. f_equal.
      apply replace_from_absent; [done|].
      apply occurrences_none.
      pose proof (occurrences_app_le old m post) as Hle.
      rewrite <- Hm in Hle. lia.
    + destruct (IH Hocc) as (pre & post & Hs & Hrep).
      exists (c :: pre), post. split; [by rewrite Hs|].
      by rewrite replace_from_cons, Hst, Hrep.
Qed.

(** The one occurrence of [old] is where [new] is put. *)
Lemma replace_single old new s :
  occurrences old s = 1%nat ->
  exists pre post, s = pre ++ old ++ post /\ replace old new s = pre ++ new ++ post.
Proof.
  destruct old as [|a old'].
  - (* the empty string occurs once only in the empty string *)
    destruct s as [|c s]; simpl.
    + intros _. exists [], []. by rewrite !app_nil_r.
    + intros H. exfalso.
      assert (0 < occurrences [] s)%nat.
      { apply occurrences_pos. by destruct s. }
      lia.
  - by apply replace_from_single.
Qed.

(** After the replacement no occurrence of [old] is left, when [old]
    starts with a character that [new] does not have and [new] starts
    with a character that [old] does not have. *)
Lemma startswith_replaced old h new' p s :
  h ∉ p ->
  startswith p (replace_from old (h :: new') 0 s) = true ->
  startswith p s = true.
Proof.
  revert p. induction s as [|c s IH]; intros p Hp; [done|].
  destruct p as [|x p]; [done|].
  rewrite replace_from_cons. destruct (startswith old (c :: s)).
  - simpl. intros H. apply andb_prop in H as [H _].
    apply N.eqb_eq in H as ->. exfalso. apply Hp. left.
  - simpl. intros H. apply andb_prop in H as [-> H]. simpl.
    apply IH; [|done]. intros Hin. apply Hp. by right.
Qed.

Lemma contains_after_fresh a old' pre t :
  a ∉ pre -> contains (a :: old') t = false ->
  contains (a :: old') (pre ++ t) = false.
Proof.
  induction pre as [|c pre IH]; intros Hpre Ht; [done|].
  apply not_elem_of_cons in Hpre as [Hac Hpre].
  cbn [app contains]. rewrite (IH Hpre Ht), orb_false_r.
  simpl. apply N.eqb_neq in Hac. by rewrite Hac.
Qed.

Lemma replace_from_no_occurrence a old' h new' k s :
  a ∉ h :: new' -> h ∉ a :: old' ->
  contains (a :: old') (replace_from (a :: old') (h :: new') k s) = false.
Proof.
  intros a_fresh h_fresh.
  revert k. induction s as [|c s IH]; intros k; [done|].
  destruct k as [|k]; [|apply IH].
  rewrite replace_from_cons.
  destruct (startswith (a :: old') (c :: s)) eqn:Hst.
  - apply contains_after_fresh; [done|apply IH].
  - cbn [contains]. rewrite IH, orb_false_r.
    destruct (startswith (a :: old')
                (c :: replace_from (a :: old') (h :: new') 0 s)) eqn:E;
      [|done].
    exfalso. simpl in E, Hst.
    apply andb_prop in E as [Eac E]. rewrite Eac in Hst. simpl in Hst.
    apply startswith_replaced in E; [congruence|].
    intros Hin. apply h_fresh. by right.
Qed.

Lemma replace_no_occurrence a old' h new' s :
  a ∉ h :: new' -> h ∉ a :: old' ->
  contains (a :: old') (replace (a :: old') (h :: new') s) = false.
Proof. intros Ha Hh. by apply replace_from_no_occurrence. Qed.

End StringFacts.

(* ===================================================================== *)
(** * Facts about stripping and reading lines *)
(* ===================================================================== *)

Section LineFacts.

Implicit Types (s l body cur : str) (ls : list str).

Lemma elem_of_rev c s : c ∈ rev s <-> c ∈ s.
Proof. rewrite !list_elem_of_In. symmetry. apply in_rev. Qed.

Lemma lstrip_elem c s : c ∈ lstrip s -> c ∈ s.
Proof.
  induction s as [|x s IH]; simpl; [done|].
  destruct (isspace x); [|done]. intros H. right. by apply IH.
Qed.

Lemma lstrip_fixed s : lstrip (lstrip s) = lstrip s.
Proof.
  induction s as [|x s IH]; simpl; [done|].
  destruct (isspace x) eqn:E; [done|]. simpl. by rewrite E.
Qed.

Lemma rstrip_elem c s : c ∈ rstrip s -> c ∈ s.
Proof.
  unfold rstrip. rewrite elem_of_rev. intros H%lstrip_elem.
  by apply elem_of_rev.
Qed.

Lemma rstrip_fixed s : rstrip (rstrip s) = rstrip s.
Proof. unfold rstrip. by rewrite rev_involutive, lstrip_fixed. Qed.

Lemma strip_elem c s : c ∈ strip s -> c ∈ s.
Proof. unfold strip. intros H%rstrip_elem. by apply lstrip_elem. Qed.

Lemma rstrip_snoc_space s c : isspace c = true -> rstrip (s ++ [c]) = rstrip s.
Proof. intros H. unfold rstrip. rewrite rev_app_distr. simpl. by rewrite H. Qed.

(** What [rstrip] keeps starts as the string starts. *)
Lemma rstrip_keeps_head c s :
  isspace c = false -> exists t, rstrip (c :: s) = c :: t.
Proof.
  intros Hc. unfold rstrip. simpl.
  induction (rev s) as [|y r IH]; simpl.
  - rewrite Hc. by exists [].
  - destruct (isspace y) eqn:Hy.
    + apply IH.
    + simpl. rewrite rev_app_distr. simpl. by eexists.
Qed.

Lemma lstrip_rstrip s : lstrip (rstrip (lstrip s)) = rstrip (lstrip s).
Proof.
  induction s as [|x s IH]; simpl; [done|].
  destruct (isspace x) eqn:E; [done|].
  destruct (rstrip_keeps_head x s E) as [t ->]. simpl. by rewrite E.
Qed.

Lemma strip_app_LF s : strip (s ++ [LF]) = strip s.
Proof.
  unfold strip. induction s as [|x s IH]; simpl; [done|].
  destruct (isspace x); [done|].
  change (x :: s ++ [LF]) with ((x :: s) ++ [LF]).
  by rewrite rstrip_snoc_space.
Qed.

(** A stripped line is the same after another strip. *)
Lemma strip_strip s : strip (strip s) = strip s.
Proof. unfold strip at 1 2. by rewrite lstrip_rstrip, rstrip_fixed. Qed.

(** ** The lines a file is read as *)

(** Every line is a text without line end, followed by "\n" or, for the
    last line only, by nothing. *)
Lemma readlines_from_shape n cur s x :
  (length s <= n)%nat ->
  LF ∉ cur -> CR ∉ cur ->
  x ∈ readlines_from cur s ->
  exists body, (x = body ++ [LF] \/ x = body) /\ (LF ∉ body) /\ (CR ∉ body).
Proof.
  revert cur s. induction n as [|n IH]; intros cur s Hn Hlf Hcr.
  - destruct s; [|simpl in Hn; lia]. simpl.
    destruct cur as [|c cur]; [by intros ?%elem_of_nil|].
    intros ->%list_elem_of_singleton. exists (rev (c :: cur)).
    split; [by right|]. by rewrite !elem_of_rev.
  - destruct s as [|c s].
    { simpl. destruct cur as [|c cur]; [by intros ?%elem_of_nil|].
      intros ->%list_elem_of_singleton. exists (rev (c :: cur)).
      split; [by right|]. by rewrite !elem_of_rev. }
    simpl in Hn. cbn [readlines_from].
    assert (Hline : exists body,
      (rev (LF :: cur) = body ++ [LF] \/ rev (LF :: cur) = body) /\
      (LF ∉ body) /\ (CR ∉ body)).
    { exists (rev cur). split; [by left|]. by rewrite !elem_of_rev. }
    destruct (N.eqb_spec c LF) as [->|Hc1].
    { intros [->|H]%elem_of_cons; [done|].
      apply (IH [] s); [lia|apply not_elem_of_nil..|done]. }
    destruct (N.eqb_spec c CR) as [->|Hc2].
    { destruct s as [|c' s].
      - by intros ->%list_elem_of_singleton.
      - destruct (c' =? LF).
        + intros [->|H]%elem_of_cons; [done|].
          apply (IH [] s); [simpl in Hn; lia|apply not_elem_of_nil..|done].
        + intros [->|H]%elem_of_cons; [done|].
          apply (IH [] (c' :: s)); [lia|apply not_elem_of_nil..|done]. }
    apply IH; [lia|by apply not_elem_of_cons..].
Qed.

Lemma readlines_shape content x :
  x ∈ readlines content ->
  exists body, (x = body ++ [LF] \/ x = body) /\ (LF ∉ body) /\ (CR ∉ body).
Proof.
  apply (readlines_from_shape (length content)); [done|apply not_elem_of_nil..].
Qed.

Lemma readlines_from_line cur l rest :
  LF ∉ l -> CR ∉ l ->
  readlines_from cur (l ++ LF :: rest) =
  (rev cur ++ l ++ [LF]) :: readlines_from [] rest.
Proof.
  revert cur. induction l as [|c l IH]; intros cur Hlf Hcr.
  - done.
  - apply not_elem_of_cons in Hlf as [Hc1 Hlf].
    apply not_elem_of_cons in Hcr as [Hc2 Hcr].
    cbn [app readlines_from].
    destruct (N.eqb_spec c LF) as [->|_]; [done|].
    destruct (N.eqb_spec c CR) as [->|_]; [done|].
    rewrite IH by done. simpl. by rewrite <- !app_assoc.
Qed.

End LineFacts.

(* ===================================================================== *)
(** * The queue: [pop_first_url] *)
(* ===================================================================== *)

Section Queue.

Import DingTalkBotEnhanced.

Implicit Types (w : world) (l content : str) (ls : list str).

Lemma queue_lines_clean content l : l ∈ queue_lines content -> clean l.
Proof.
  unfold queue_lines. rewrite list_elem_of_In, in_map_iff.
  intros (x & <- & Hx). apply filter_In in Hx as [Hx Hne].
  apply list_elem_of_In, readlines_shape in Hx
    as (body & Hbody & Hlf & Hcr).
  assert (Hstrip : strip x = strip body).
  { destruct Hbody as [->| ->]; [apply strip_app_LF|done]. }
  rewrite Hstrip in *. repeat split.
  - by destruct (strip body).
  - apply strip_strip.
  - intros H%strip_elem. by apply Hlf.
  - intros H%strip_elem. by apply Hcr.
Qed.

Lemma queue_lines_all_clean content : Forall clean (queue_lines content).
Proof. apply Forall_forall. intros l. apply queue_lines_clean. Qed.

Lemma queue_text_lines ls :
  queue_text ls = concat (map (fun l => l ++ [LF]) ls).
Proof.
  destruct ls as [|l ls]; [done|]. unfold queue_text.
  revert l. induction ls as [|l' ls IH]; intros l.
  - simpl. by rewrite app_nil_r.
  - change (join [LF] (l :: l' :: ls)) with (l ++ [LF] ++ join [LF] (l' :: ls)).
    rewrite <- !app_assoc, IH. cbn [map concat].
    by rewrite <- (app_assoc l).
Qed.

(** Reading back what was written gives the lines that were written. *)
Lemma queue_lines_text ls : Forall clean ls -> queue_lines (queue_text ls) = ls.
Proof.
  rewrite queue_text_lines. unfold queue_lines, readlines.
  induction 1 as [|l ls (Hne & Hstrip & Hlf & Hcr) _ IH]; [done|].
  cbn [map concat]. rewrite <- app_assoc. cbn [app].
  rewrite readlines_from_line by done. cbn [rev app List.filter].
  rewrite strip_app_LF, Hstrip. destruct l as [|c l]; [done|].
  cbn [nonempty map]. by rewrite strip_app_LF, Hstrip, IH.
Qed.

Lemma temp_path_fresh (file_path : str) : file_path ++ u ".tmp" <> file_path.
Proof.
  intros H. apply (f_equal length) in H. rewrite length_app in H.
  simpl in H. lia.
Qed.

Lemma path_exists_found file_path w content :
  fs w !! file_path = Some content -> path_exists file_path w = (Ok true, w).
Proof. intros H. unfold path_exists. by rewrite H. Qed.

Lemma path_exists_absent file_path w :
  fs w !! file_path = None -> path_exists file_path w = (Ok false, w).
Proof. intros H. unfold path_exists. by rewrite H. Qed.

(** The body of [pop_first_url] on a file that is there. *)
Lemma pop_first_url_found file_path w content :
  fs w !! file_path = Some content ->
  pop_first_url file_path w =
  match queue_lines content with
  | [] => (Ok None, emit (EvLog WARNING (u "⚠️ URL文件为空")) w)
  | current_url :: remaining =>
      let temp_path := file_path ++ u ".tmp" in
      let data := queue_text remaining in
      (Ok (Some current_url),
       emit (EvLog INFO (u "✅ 已弹出URL: %s | 剩余: %d"))
         (emit (EvReplace temp_path file_path)
            (set_fs (<[file_path := data]> (delete temp_path (fs w)))
               (emit (EvWrite temp_path data) w))))
  end.
Proof.
  intros Hfile. unfold pop_first_url, bind.
  rewrite (path_exists_found _ _ _ Hfile). cbn [negb].
  unfold try_except, bind, read_text. rewrite Hfile.
  destruct (queue_lines content) as [|current_url remaining]; [done|].
  unfold write_text, os_replace. cbn [fs set_fs emit].
  rewrite lookup_insert_eq. cbn [log ret fs set_fs emit].
  rewrite delete_insert_eq. reflexivity.
Qed.



(** C4.  For an absent file, and for a file all of whose lines are empty
    once stripped, [pop_first_url] returns [None] (it returns, it does not
    raise), the files are as before (nothing is written, nothing renamed)
    and the only effect is one log call. *)
Theorem pop_first_url_nothing w file_path :
  (fs w !! file_path = None ->
   exists w',
     pop_first_url file_path w = (Ok None, w') /\ fs w' = fs w /\
     trace w' = trace w ++ [EvLog ERROR (u "❌ URL文件不存在: %s")]) /\
  (forall content,
     fs w !! file_path = Some content ->
     Forall (fun line => strip line = []) (readlines content) ->
     exists w',
       pop_first_url file_path w = (Ok None, w') /\ fs w' = fs w /\
       trace w' = trace w ++ [EvLog WARNING (u "⚠️ URL文件为空")]).
Proof.
  split.
  - intros Habsent. eexists. split.
    { unfold pop_first_url, bind.
      rewrite (path_exists_absent _ _ Habsent). reflexivity. }
    done.
  - intros content Hfile Hblank.
    assert (Hnone : queue_lines content = []).
    { unfold queue_lines.
      induction Hblank as [|line lines Hline _ IH]; [done|].
      cbn [List.filter]. by rewrite Hline. }
    eexists. split.
    { rewrite (pop_first_url_found _ _ _ Hfile), Hnone. reflexivity. }
    done.
Qed.

Lemma pop_first_url_nothing_witness :
  let file_path := u "/srv/config/image.txt" in
  let blank := u "
  	
" in
  let w0 := sample_world ∅ Config.Missing (always accepts) in
  let w1 := sample_world {[ file_path := blank ]} Config.Missing
              (always accepts) in
  (fs w0 !! file_path = None /\
   exists w', pop_first_url file_path w0 = (Ok None, w') /\ fs w' = fs w0) /\
  (fs w1 !! file_path = Some blank /\
   Forall (fun line => strip line = []) (readlines blank) /\
   exists w', pop_first_url file_path w1 = (Ok None, w') /\ fs w' = fs w1).
Proof.
  intros file_path blank w0 w1. split.
  - assert (H : fs w0 !! file_path = None) by apply lookup_empty.
    split; [exact H|].
    destruct (proj1 (pop_first_url_nothing w0 file_path) H) as (w' & Hp & Hf & _).
    exists w'. split; [exact Hp|exact Hf].
  - assert (H : fs w1 !! file_path = Some blank) by apply lookup_singleton_eq.
    assert (Hb : Forall (fun line => strip line = []) (readlines blank))
      by (vm_compute; repeat constructor).
    split; [exact H|]. split; [exact Hb|].
    destruct (proj2 (pop_first_url_nothing w1 file_path) blank H Hb)
      as (w' & Hp & Hf & _).
    exists w'. split; [exact Hp|exact Hf].
Defined.

End Queue.

(* ===================================================================== *)
(** * The validator and the composer *)
(* ===================================================================== *)

Section Validator.

Import DingTalkBotEnhanced.

Implicit Types (w : world) (url template : str).

Lemma lower_app s t : lower (s ++ t) = lower s ++ lower t.
Proof. unfold lower. by rewrite flat_map_app. Qed.

Lemma existsb_elem {A} (f : A -> bool) (x : A) (l : list A) :
  x ∈ l -> f x = true -> existsb f l = true.
Proof.
  intros Hx Hf. apply existsb_exists. exists x.
  split; [by apply list_elem_of_In|done].
Qed.

(** The validator returns [validation url] and logs at most the
    allowlist warning. *)
Lemma validate_image_url_eval url w :
  validate_image_url url w = (Ok (validation url), after_validation url w).
Proof.
  unfold validate_image_url, validation, after_validation.
  fold (is_https url) (is_blocked url) (is_whitelisted url)
       (has_illegal_character url).
  destruct (is_https url); [|done]. cbn [negb andb].
  destruct (is_blocked url); [done|]. cbn [negb andb].
  unfold bind.
  destruct (is_whitelisted url); cbn [negb log ret];
    destruct (search_image_suffix url); cbn [negb]; try done;
    by destruct (has_illegal_character url).
Qed.

(** C5.  The checks run in the order scheme, blocklist, allowlist,
    format, characters and the first one that fails decides.  A URL
    that does not start with "https://" is invalid with the scheme
    message, and nothing else has happened (no log call); a URL that
    contains a blocked domain in any letter case is invalid, with the
    blocklist message when the scheme is right; the allowlist never
    changes the answer, a URL outside it only adds a warning to the log;
    then come the format and at last the characters. *)
Theorem validate_image_url_order url w :
  (is_https url = false ->
   validate_image_url url w = (Ok (false, MSG_NOT_HTTPS), w)) /\
  (forall d pre s post,
     d ∈ BLOCKED_DOMAINS -> url = pre ++ s ++ post -> lower s = d ->
     (exists reason, validate_image_url url w = (Ok (false, reason), w)) /\
     (is_https url = true ->
      validate_image_url url w = (Ok (false, MSG_BLOCKED), w))) /\
  (is_https url = true -> is_blocked url = false ->
   exists w',
     validate_image_url url w =
       (Ok (if negb (search_image_suffix url) then (false, MSG_BAD_FORMAT)
            else if has_illegal_character url then (false, MSG_ILLEGAL_CHAR)
            else (true, MSG_PASSED)), w') /\
     (is_whitelisted url = true -> w' = w) /\
     (is_whitelisted url = false ->
      w' = emit (EvLog WARNING MSG_NOT_WHITELISTED) w)).
Proof.
  rewrite validate_image_url_eval. unfold validation, after_validation.
  split; [|split].
  - by intros ->.
  - intros d pre s post Hd -> Hlower.
    assert (Hblocked : is_blocked (pre ++ s ++ post) = true).
    { apply (existsb_elem _ d); [done|].
      rewrite !lower_app, Hlower. apply contains_app. }
    rewrite Hblocked. split.
    + destruct (is_https _); by eexists.
    + by intros ->.
  - intros -> ->. cbn [negb andb]. eexists. split; [reflexivity|].
    split; by intros ->.
Qed.

Lemma validate_image_url_order_witness :
  let w := sample_world ∅ Config.Missing (always accepts) in
  (is_https (u "http://cdn.example.com/a.jpg") = false /\
   validate_image_url (u "http://cdn.example.com/a.jpg") w =
     (Ok (false, MSG_NOT_HTTPS), w)) /\
  (u "github.com" ∈ BLOCKED_DOMAINS /\
   lower (u "GitHub.COM") = u "github.com" /\
   validate_image_url (u "https://GitHub.COM/a.jpg") w =
     (Ok (false, MSG_BLOCKED), w)) /\
  (is_https (u "https://example.org/a.png") = true /\
   is_blocked (u "https://example.org/a.png") = false /\
   is_whitelisted (u "https://example.org/a.png") = false /\
   fst (validate_image_url (u "https://example.org/a.png") w) =
     Ok (true, MSG_PASSED)).
Proof.
  intros w. split; [|split].
  - assert (H : is_https (u "http://cdn.example.com/a.jpg") = false)
      by (vm_compute; reflexivity).
    split; [exact H|].
    exact (proj1 (validate_image_url_order _ w) H).
  - assert (Hd : u "github.com" ∈ BLOCKED_DOMAINS) by left.
    assert (Hl : lower (u "GitHub.COM") = u "github.com")
      by (vm_compute; reflexivity).
    split; [exact Hd|]. split; [exact Hl|].
    refine (proj2 (proj1 (proj2 (validate_image_url_order
              (u "https://GitHub.COM/a.jpg") w))
              (u "github.com") (u "https://") (u "GitHub.COM") (u "/a.jpg")
              Hd _ Hl) _); vm_compute; reflexivity.
  - assert (H1 : is_https (u "https://example.org/a.png") = true)
      by (vm_compute; reflexivity).
    assert (H2 : is_blocked (u "https://example.org/a.png") = false)
      by (vm_compute; reflexivity).
    assert (H3 : is_whitelisted (u "https://example.org/a.png") = false)
      by (vm_compute; reflexivity).
    split; [exact H1|]. split; [exact H2|]. split; [exact H3|].
    destruct (proj2 (proj2 (validate_image_url_order _ w)) H1 H2)
      as (w' & Hv & _ & _).
    rewrite Hv. cbn [fst]. vm_compute. reflexivity.
Defined.

Lemma accepted_tests url w w' reason :
  validate_image_url url w = (Ok (true, reason), w') ->
  is_https url = true /\ is_blocked url = false /\
  search_image_suffix url = true /\ has_illegal_character url = false.
Proof.
  rewrite validate_image_url_eval. unfold validation. intros H.
  destruct (is_https url); [|discriminate].
  destruct (is_blocked url); [discriminate|].
  destruct (search_image_suffix url); [|discriminate].
  by destruct (has_illegal_character url).
Qed.

Lemma has_illegal_character_unfold url :
  has_illegal_character url =
  contains [32] url || (contains [124] url ||
    (contains [123] url || (contains [125] url || false))).
Proof. reflexivity. Qed.

Lemma accepted_characters url :
  has_illegal_character url = false ->
  (32 ∉ url) /\ (124 ∉ url) /\ (123 ∉ url) /\ (125 ∉ url).
Proof.
  rewrite has_illegal_character_unfold. intros H.
  apply orb_false_elim in H as [H1 H].
  apply orb_false_elim in H as [H2 H].
  apply orb_false_elim in H as [H3 H].
  apply orb_false_elim in H as [H4 _].
  repeat split; by apply contains_char.
Qed.

Lemma placeholder_shape :
  DEFAULT_IMAGE_PLACEHOLDER = 123 :: u "IMAGE_URL}".
Proof. reflexivity. Qed.

Lemma h_not_in_placeholder : 104 ∉ DEFAULT_IMAGE_PLACEHOLDER.
Proof. apply (bool_decide_unpack _). vm_compute. exact I. Qed.

(** An accepted URL put in the place of the default placeholder leaves no
    default placeholder behind. *)
Lemma accepted_replaces_placeholder url template :
  is_https url = true -> has_illegal_character url = false ->
  contains DEFAULT_IMAGE_PLACEHOLDER
    (replace DEFAULT_IMAGE_PLACEHOLDER url template) = false.
Proof.
  intros Hhttps Hchars.
  apply accepted_characters in Hchars as (_ & _ & Hbrace & _).
  apply startswith_inv in Hhttps as [rest ->].
  rewrite placeholder_shape.
  change (u "https://" ++ rest) with (104 :: u "ttps://" ++ rest) in *.
  apply replace_no_occurrence; [done|].
  rewrite <- placeholder_shape. apply h_not_in_placeholder.
Qed.

(** C10.  A URL that the validator accepts contains no space, no "|", no
    "{" and no "}"; hence, whatever the template and however often the
    default placeholder "{IMAGE_URL}" occurs in it, the template with the
    URL substituted for the placeholder has no occurrence of the
    placeholder. *)
Theorem accepted_url_leaves_no_placeholder url w w' reason :
  validate_image_url url w = (Ok (true, reason), w') ->
  ((32 ∉ url) /\ (124 ∉ url) /\ (123 ∉ url) /\ (125 ∉ url)) /\
  forall template,
    occurrences DEFAULT_IMAGE_PLACEHOLDER
      (replace DEFAULT_IMAGE_PLACEHOLDER url template) = 0%nat.
Proof.
  intros (Hhttps & _ & _ & Hchars)%accepted_tests. split.
  - by apply accepted_characters.
  - intros template. apply occurrences_none.
    by apply accepted_replaces_placeholder.
Qed.

Lemma accepted_url_leaves_no_placeholder_witness :
  let w := sample_world ∅ Config.Missing (always accepts) in
  let url := u "https://cdn.example.com/a.jpg" in
  let template := u "{IMAGE_URL} and again {IMAGE_URL}{IMAGE_URL}" in
  validate_image_url url w = (Ok (true, MSG_PASSED), w) /\
  occurrences DEFAULT_IMAGE_PLACEHOLDER template = 3%nat /\
  occurrences DEFAULT_IMAGE_PLACEHOLDER
    (replace DEFAULT_IMAGE_PLACEHOLDER url template) = 0%nat.
Proof.
  intros w url template.
  assert (H : validate_image_url url w = (Ok (true, MSG_PASSED), w))
    by (vm_compute; reflexivity).
  split; [exact H|]. split; [vm_compute; reflexivity|].
  exact (proj2 (accepted_url_leaves_no_placeholder url w w MSG_PASSED H)
           template).
Defined.

(** ** The composer *)

Lemma compose_present content img_url image_placeholder w :
  contains image_placeholder content = true ->
  fst (compose content img_url image_placeholder w) =
  Ok (replace image_placeholder img_url content).
Proof. intros H. unfold compose. by rewrite H. Qed.

Lemma compose_absent content img_url image_placeholder w :
  contains image_placeholder content = false ->
  fst (compose content img_url image_placeholder w) =
  Ok (content ++ image_block img_url).
Proof. intros H. unfold compose. by rewrite H. Qed.

(** C6, as the code has it.  When the placeholder occurs exactly once
    in the template, [template = pre ++ placeholder ++ post], the composed
    text is [pre ++ identifier ++ post]: the identifier stands where the
    placeholder stood and the occurrence of the template is replaced.  No
    occurrence of the placeholder is left in the composed text when the
    identifier does not contain the first character of the placeholder
    and begins with a character that the placeholder does not contain,
    as is the case of every identifier the validator accepts with the
    default placeholder.  When the placeholder does not occur in the
    template, the composed text is the template followed by a blank line
    and the Markdown image block of the identifier. *)
Theorem compose_cases template identifier placeholder w :
  (occurrences placeholder template = 1%nat ->
   exists pre post,
     template = pre ++ placeholder ++ post /\
     fst (compose template identifier placeholder w) =
       Ok (pre ++ identifier ++ post) /\
     (forall a h placeholder' identifier',
        placeholder = a :: placeholder' -> identifier = h :: identifier' ->
        a ∉ identifier -> h ∉ placeholder ->
        contains placeholder (pre ++ identifier ++ post) = false) /\
     (forall reason,
        placeholder = DEFAULT_IMAGE_PLACEHOLDER ->
        fst (validate_image_url identifier w) = Ok (true, reason) ->
        contains placeholder (pre ++ identifier ++ post) = false)) /\
  (contains placeholder template = false ->
   fst (compose template identifier placeholder w) =
     Ok (template ++ u "

![监控图](" ++ identifier ++ u ")")).
Proof.
  split.
  - intros Hone.
    destruct (replace_single placeholder identifier template Hone)
      as (pre & post & Htemplate & Hreplace).
    exists pre, post. split; [done|]. split; [|split].
    + rewrite compose_present, Hreplace; [done|].
      apply occurrences_pos. lia.
    + intros a h placeholder' identifier' -> -> Ha Hh.
      rewrite <- Hreplace. by apply replace_no_occurrence.
    + intros reason -> Hvalid. rewrite <- Hreplace.
      destruct (validate_image_url identifier w) as [r w1] eqn:Hok.
      simpl in Hvalid. subst r.
      apply accepted_tests in Hok as (Hhttps & _ & _ & Hchars).
      by apply accepted_replaces_placeholder.
  - apply compose_absent.
Qed.

Lemma compose_cases_witness :
  let w := sample_world ∅ Config.Missing (always accepts) in
  let url := u "https://cdn.example.com/a.jpg" in
  (occurrences (u "{IMAGE_URL}") (u "Today: {IMAGE_URL} (daily)") = 1%nat /\
   fst (compose (u "Today: {IMAGE_URL} (daily)") url (u "{IMAGE_URL}") w) =
     Ok (u "Today: https://cdn.example.com/a.jpg (daily)")) /\
  (contains (u "{IMAGE_URL}") (u "Today") = false /\
   fst (compose (u "Today") url (u "{IMAGE_URL}") w) =
     Ok (u "Today

![监控图](https://cdn.example.com/a.jpg)")).
Proof.
  intros w url. split.
  - assert (H : occurrences (u "{IMAGE_URL}") (u "Today: {IMAGE_URL} (daily)")
                = 1%nat) by (vm_compute; reflexivity).
    split; [exact H|].
    destruct (proj1 (compose_cases (u "Today: {IMAGE_URL} (daily)") url
                       (u "{IMAGE_URL}") w) H) as (pre & post & _ & Hc & _).
    vm_compute. reflexivity.
  - assert (H : contains (u "{IMAGE_URL}") (u "Today") = false)
      by (vm_compute; reflexivity).
    split; [exact H|].
    rewrite (proj2 (compose_cases (u "Today") url (u "{IMAGE_URL}") w) H).
    vm_compute. reflexivity.
Defined.

(** C6 as stated does not hold: the identifier is accepted by the
    validator, the placeholder occurs exactly once in the template, and
    the composed text, which is the text [send_markdown_with_image] hands
    to the transport, still contains the placeholder, because the
    identifier itself does. *)
Lemma compose_placeholder_remains :
  let w := sample_world ∅ Config.Missing (always accepts) in
  let template := u "pic: IMG" in
  let placeholder := u "IMG" in
  let identifier := u "https://cdn.example.com/IMG.png" in
  fst (validate_image_url identifier w) = Ok (true, MSG_PASSED) /\
  occurrences placeholder template = 1%nat /\
  fst (compose template identifier placeholder w) =
    Ok (u "pic: https://cdn.example.com/IMG.png") /\
  contains placeholder (u "pic: https://cdn.example.com/IMG.png") = true /\
  effects
    (added w
       (snd (send_markdown_with_image sample_bot (u "title") template
               identifier placeholder None false w))) =
    [EvCall (bot sample_bot)
       (Chatbot.send_markdown (u "title")
          (u "pic: https://cdn.example.com/IMG.png") None false)].
Proof. vm_compute. repeat split. Qed.

(** ** The model on small inputs *)

Example lines_of_a_file :
  queue_lines (u "  https://a/x.png  
	
https://b/y.jpg") = [u "https://a/x.png"; u "https://b/y.jpg"].
Proof. vm_compute. reflexivity. Qed.

Example carriage_returns :
  readlines [97; CR; LF; 98; CR; 99; LF; LF; 100] =
  [[97; LF]; [98; LF]; [99; LF]; [LF]; [100]].
Proof. vm_compute. reflexivity. Qed.

Example replace_does_not_overlap :
  replace (u "aa") (u "b") (u "aaa") = u "ba".
Proof. vm_compute. reflexivity. Qed.

Example replace_of_the_empty_string :
  replace [] (u "-") (u "abc") = u "-a-b-c-".
Proof. vm_compute. reflexivity. Qed.

Example suffix_in_any_case :
  search_image_suffix (u "https://a/x.JPeG") = true /\
  search_image_suffix (u "https://a/x.gıF") = true /\
  search_image_suffix (u "https://a/x.png
") = true /\
  search_image_suffix (u "https://a/x.png?v=1") = false /\
  search_image_suffix (u "https://a/xpng") = false.
Proof. vm_compute. repeat split. Qed.

Example blocked_in_any_case :
  fst (validation (u "https://RAW.GithubUserContent.com/a/b.png")) = false /\
  fst (validation (u "https://cdn.example.com/a b.png")) = false /\
  fst (validation (u "https://cdn.example.com/a.png")) = true.
Proof. vm_compute. repeat split. Qed.

End Validator.

(** From here on the texts of the messages are not looked into: a
    literal is equal to itself and to nothing that is written otherwise. *)
(* ===================================================================== *)
(** * Facts about rounding *)
(* ===================================================================== *)

Section Float64Facts.

Import Float64.
Local Open Scope Q_scope.

Lemma rne_inject z : rne (inject_Z z) = z.
Proof.
  unfold rne. rewrite Qfloor_Z.
  destruct (Qcompare_spec (inject_Z z - inject_Z z) (1 # 2)) as [H|H|H];
    [exfalso; lra|reflexivity|exfalso; lra].
Qed.

Lemma rne_mono y1 y2 : y1 <= y2 -> (rne y1 <= rne y2)%Z.
Proof.
  intros Hle. pose proof (Qfloor_resp_le _ _ Hle) as Hf.
  pose proof (Qfloor_le y1) as Hl1. pose proof (Qlt_floor y1) as Hu1.
  pose proof (Qfloor_le y2) as Hl2. pose proof (Qlt_floor y2) as Hu2.
  unfold rne.
  destruct (Z.eq_dec (Qfloor y1) (Qfloor y2)) as [Heq|Hne].
  - rewrite <- Heq in *. clear Heq Hf.
    destruct (Qcompare_spec (y1 - inject_Z (Qfloor y1)) (1 # 2)) as [H1|H1|H1];
      destruct (Qcompare_spec (y2 - inject_Z (Qfloor y1)) (1 # 2)) as [H2|H2|H2];
      try destruct (Z.even (Qfloor y1)); try lia; exfalso; lra.
  - assert (Hlt : (Qfloor y1 + 1 <= Qfloor y2)%Z) by lia.
    destruct (Qcompare _ _); destruct (Qcompare _ _);
      try destruct (Z.even (Qfloor y1)); try destruct (Z.even (Qfloor y2));
      lia.
Qed.

Lemma rne_le y z : y <= inject_Z z -> (rne y <= z)%Z.
Proof. intros H. rewrite <- (rne_inject z). by apply rne_mono. Qed.

Lemma rne_ge y z : inject_Z z <= y -> (z <= rne y)%Z.
Proof. intros H. rewrite <- (rne_inject z). by apply rne_mono. Qed.

Lemma step_nonneg X : (0 <= step X)%Z.
Proof. unfold step. lia. Qed.

Lemma step_mono X Y : X <= Y -> (step X <= step Y)%Z.
Proof.
  intros H. unfold step.
  pose proof (Z.log2_le_mono _ _ (Qfloor_resp_le _ _ H)). lia.
Qed.

Lemma pow2_pos s : (0 <= s)%Z -> 0 < inject_Z (2 ^ s).
Proof.
  intros H. change 0 with (inject_Z 0). rewrite <- Zlt_Qlt.
  by apply Z.pow_pos_nonneg.
Qed.

(** A magnitude is below the end of its binade, which is on its grid, *)
Lemma nearest_upper X : 0 <= X -> (nearest X <= 2 ^ (step X + 53))%Z.
Proof.
  intros HX. unfold nearest. pose proof (step_nonneg X) as Hs.
  rewrite Z.pow_add_r by lia. rewrite (Z.mul_comm (2 ^ step X)).
  apply Z.mul_le_mono_nonneg_r; [by apply Z.pow_nonneg|].
  apply rne_le. apply Qle_shift_div_r; [by apply pow2_pos|].
  rewrite <- inject_Z_mult, <- Z.pow_add_r by lia.
  apply Qlt_le_weak. eapply Qlt_le_trans; [apply Qlt_floor|].
  rewrite <- Zle_Qle.
  assert (H0 : (0 <= Qfloor X)%Z).
  { change 0%Z with (Qfloor 0). by apply Qfloor_resp_le. }
  assert (Hlog : (Qfloor X < 2 ^ (Z.log2 (Qfloor X) + 1))%Z).
  { destruct (Z.eq_dec (Qfloor X) 0) as [->|Hne]; [done|].
    rewrite Z.add_1_r. apply Z.log2_spec. lia. }
  assert (Hexp : (2 ^ (Z.log2 (Qfloor X) + 1) <= 2 ^ (53 + step X))%Z).
  { apply Z.pow_le_mono_r; [lia|]. unfold step. lia. }
  lia.
Qed.

(** and so is the start of the binade of a normal number. *)
Lemma nearest_lower Y : (0 < step Y)%Z -> (2 ^ (step Y + 52) <= nearest Y)%Z.
Proof.
  intros Hs. unfold nearest.
  rewrite Z.pow_add_r by lia. rewrite (Z.mul_comm (2 ^ step Y)).
  apply Z.mul_le_mono_nonneg_r; [by apply Z.pow_nonneg|].
  apply rne_ge. apply Qle_shift_div_l; [apply pow2_pos; lia|].
  rewrite <- inject_Z_mult, <- Z.pow_add_r by lia.
  eapply Qle_trans; [|apply Qfloor_le]. rewrite <- Zle_Qle.
  assert (Hstep : (52 + step Y = Z.log2 (Qfloor Y))%Z)
    by (unfold step in *; lia).
  rewrite Hstep. apply Z.log2_spec.
  destruct (Z.le_gt_cases (Qfloor Y) 0) as [H|H]; [|done].
  rewrite (Z.log2_nonpos _ H) in Hstep. unfold step in *. lia.
Qed.

Lemma nearest_mono X Y : 0 <= X -> X <= Y -> (nearest X <= nearest Y)%Z.
Proof.
  intros HX Hle. pose proof (step_mono X Y Hle) as Hs.
  pose proof (step_nonneg X) as HsX.
  destruct (Z.eq_dec (step X) (step Y)) as [Heq|Hne].
  - unfold nearest. rewrite <- Heq.
    apply Z.mul_le_mono_nonneg_r; [by apply Z.pow_nonneg|].
    apply rne_mono. apply Qmult_le_compat_r; [exact Hle|].
    apply Qlt_le_weak, Qinv_lt_0_compat, pow2_pos, HsX.
  - etransitivity; [by apply nearest_upper|].
    etransitivity; [|apply nearest_lower; lia].
    apply Z.pow_le_mono_r; lia.
Qed.

Lemma scale_pos : 0 < inject_Z scale.
Proof. apply pow2_pos. done. Qed.

Lemma round64_nonneg x :
  0 <= x ->
  round64 x == inject_Z (nearest (x * inject_Z scale)) / inject_Z scale.
Proof.
  intros Hx. unfold round64. rewrite Qred_correct.
  destruct (Qcompare_spec x 0) as [H|H|H]; [reflexivity|lra|reflexivity].
Qed.

(** Rounding keeps the order. *)
Lemma round64_mono x y : 0 <= x -> x <= y -> round64 x <= round64 y.
Proof.
  intros Hx Hle. rewrite (round64_nonneg x Hx).
  rewrite (round64_nonneg y) by lra.
  pose proof scale_pos as Hs.
  apply Qmult_le_compat_r; [|by apply Qlt_le_weak, Qinv_lt_0_compat].
  rewrite <- Zle_Qle. apply nearest_mono.
  - apply Qmult_le_0_compat; lra.
  - apply Qmult_le_compat_r; lra.
Qed.

(** Between two floats, the rounded value stays between them. *)
Lemma round64_between a b x :
  round64 a = a -> round64 b = b -> 0 <= a -> a <= x -> x <= b ->
  a <= round64 x /\ round64 x <= b.
Proof.
  intros Ha Hb H0 H1 H2. split.
  - eapply Qle_trans; [|by apply (round64_mono a x)].
    rewrite Ha. apply Qle_refl.
  - eapply Qle_trans; [apply (round64_mono x b); lra|].
    rewrite Hb. apply Qle_refl.
Qed.

(** The small integers are floats. *)
Lemma round64_small n :
  (n <= 5)%nat -> round64 (inject_Z (Z.of_nat n)) = inject_Z (Z.of_nat n).
Proof.
  intros H. do 6 (destruct n as [|n]; [vm_compute; reflexivity|]). lia.
Qed.

(** The largest value of [random.random()] is 1 - 2^-53; adding 1 to it
    gives 2, by the tie rule. *)
Example round64_tie :
  round64 (1 - (1 # 2 ^ 53)) = 1 - (1 # 2 ^ 53) /\
  fadd 1 (1 - (1 # 2 ^ 53)) = 2.
Proof. vm_compute. split; reflexivity. Qed.

(** [random.uniform(0, 1)] and [random.uniform(1, 3)] *)
Lemma uniform_value_unit r :
  0 <= r -> r <= 1 -> 0 <= uniform_value 0 1 r /\ uniform_value 0 1 r <= 1.
Proof.
  intros H0 H1. unfold uniform_value, fadd, fmul, of_int.
  replace (round64 (1 - 0)) with 1 by (vm_compute; reflexivity).
  replace (round64 0) with 0 by (vm_compute; reflexivity).
  destruct (round64_between 0 1 (1 * r)) as [Hl Hu];
    [apply (round64_small 0); lia|apply (round64_small 1); lia|lra..|].
  apply round64_between;
    [apply (round64_small 0); lia|apply (round64_small 1); lia|lra..].
Qed.

Lemma uniform_value_pace r :
  0 <= r -> r <= 1 -> 1 <= uniform_value 1 3 r /\ uniform_value 1 3 r <= 3.
Proof.
  intros H0 H1. unfold uniform_value, fadd, fmul, of_int.
  replace (round64 (3 - 1)) with 2 by (vm_compute; reflexivity).
  replace (round64 1) with 1 by (vm_compute; reflexivity).
  destruct (round64_between 0 2 (2 * r)) as [Hl Hu];
    [apply (round64_small 0); lia|apply (round64_small 2); lia|lra..|].
  apply round64_between;
    [apply (round64_small 1); lia|apply (round64_small 3); lia|lra..].
Qed.

(** The delay computed after attempt [retry], for a jitter in [0, 1]. *)
Lemma retry_delay_between retry jitter :
  (retry < 3)%nat -> 0 <= jitter -> jitter <= 1 ->
  inject_Z (2 ^ Z.of_nat retry)
    <= DingTalkBotEnhanced.retry_delay retry jitter /\
  DingTalkBotEnhanced.retry_delay retry jitter
    <= inject_Z (2 ^ Z.of_nat retry) + 1.
Proof.
  intros Hretry H0 H1.
  unfold DingTalkBotEnhanced.retry_delay, fadd, of_int.
  destruct retry as [|[|[|retry]]]; [| | |lia].
  - replace (round64 (inject_Z (INITIAL_RETRY_DELAY * 2 ^ Z.of_nat 0)))
      with 1 by (vm_compute; reflexivity).
    change (inject_Z (2 ^ Z.of_nat 0)) with 1.
    apply (round64_between 1 (1 + 1));
      [apply (round64_small 1); lia|apply (round64_small 2); lia|lra..].
  - replace (round64 (inject_Z (INITIAL_RETRY_DELAY * 2 ^ Z.of_nat 1)))
      with 2 by (vm_compute; reflexivity).
    change (inject_Z (2 ^ Z.of_nat 1)) with 2.
    apply (round64_between 2 (2 + 1));
      [apply (round64_small 2); lia|apply (round64_small 3); lia|lra..].
  - replace (round64 (inject_Z (INITIAL_RETRY_DELAY * 2 ^ Z.of_nat 2)))
      with 4 by (vm_compute; reflexivity).
    change (inject_Z (2 ^ Z.of_nat 2)) with 4.
    apply (round64_between 4 (4 + 1));
      [apply (round64_small 4); lia|apply (round64_small 5); lia|lra..].
Qed.

End Float64Facts.

Opaque u.

(* ===================================================================== *)
(** * The retry wrapper: [_send_with_retry] *)
(* ===================================================================== *)

Section Retry.

Import DingTalkBotEnhanced.

Implicit Types (w : world) (self : t) (req : Chatbot.request).

Ltac world_simpl :=
  cbn [calls draws net rng fs config_file cwd trace
       emit set_calls set_draws set_fs set_cwd called].

Lemma added_app w w' evs : trace w' = trace w ++ evs -> added w w' = evs.
Proof. intros H. unfold added. by rewrite H, drop_app_length. Qed.

Lemma effects_app tr1 tr2 : effects (tr1 ++ tr2) = effects tr1 ++ effects tr2.
Proof. unfold effects. apply List.filter_app. Qed.

Lemma wait_before_retry_eval retry w :
  wait_before_retry retry w = (Ok tt, after_wait retry w).
Proof.
  unfold wait_before_retry, after_wait.
  by destruct (retry <? MAX_RETRIES - 1)%nat.
Qed.

Lemma attempt_eval self req retry w :
  attempt self req retry w =
  if failed (net w (calls w))
  then (Ok false, after_failure (bot self) req retry w)
  else (Ok true, after_success (bot self) req w).
Proof.
  unfold attempt, try_except, bind, invoke, failed, after_failure,
    after_success, called.
  destruct (net w (calls w)) as [res|] eqn:Hnet; cbn [failure_message].
  - destruct (is_success res); cbn [negb log ret]; [reflexivity|].
    rewrite wait_before_retry_eval. reflexivity.
  - cbn [log]. rewrite wait_before_retry_eval. reflexivity.
Qed.

Lemma retry_loop_cons self req retry rest w :
  retry_loop self req (retry :: rest) w =
  if failed (net w (calls w))
  then retry_loop self req rest (after_failure (bot self) req retry w)
  else (Ok true, after_success (bot self) req w).
Proof.
  cbn [retry_loop]. unfold bind. rewrite attempt_eval.
  destruct (failed (net w (calls w))); reflexivity.
Qed.

(** What a failed attempt that is not the last one leaves behind. *)
Lemma after_failure_not_last bot req retry w :
  (retry < MAX_RETRIES - 1)%nat ->
  let w' := after_failure bot req retry w in
  calls w' = S (calls w) /\ draws w' = S (draws w) /\
  net w' = net w /\ rng w' = rng w /\ fs w' = fs w /\
  config_file w' = config_file w /\ cwd w' = cwd w /\
  exists evs,
    trace w' = trace w ++ evs /\
    effects evs =
      [EvCall bot req;
       EvSleep (retry_delay retry (uniform_value 0 1 (rng w (draws w))))].
Proof.
  intros Hlt%Nat.ltb_lt. unfold after_failure, after_wait. rewrite Hlt.
  world_simpl. repeat split. eexists. split.
  - rewrite <- !app_assoc. reflexivity.
  - reflexivity.
Qed.

(** What the last attempt leaves behind when it fails: no sleep. *)
Lemma after_failure_last bot req w :
  let w' := after_failure bot req (MAX_RETRIES - 1) w in
  calls w' = S (calls w) /\ draws w' = draws w /\
  net w' = net w /\ rng w' = rng w /\ fs w' = fs w /\
  config_file w' = config_file w /\ cwd w' = cwd w /\
  exists evs, trace w' = trace w ++ evs /\ effects evs = [EvCall bot req].
Proof.
  unfold after_failure, after_wait.
  change (MAX_RETRIES - 1 <? MAX_RETRIES - 1)%nat with false.
  world_simpl. repeat split. eexists. split.
  - rewrite <- !app_assoc. reflexivity.
  - reflexivity.
Qed.

Lemma after_success_effects bot req w :
  let w' := after_success bot req w in
  calls w' = S (calls w) /\ draws w' = draws w /\
  net w' = net w /\ rng w' = rng w /\ fs w' = fs w /\
  config_file w' = config_file w /\ cwd w' = cwd w /\
  exists evs, trace w' = trace w ++ evs /\ effects evs = [EvCall bot req].
Proof.
  unfold after_success. world_simpl. repeat split. eexists. split.
  - rewrite <- !app_assoc. reflexivity.
  - reflexivity.
Qed.

(** [n] failed attempts in a row, none of them the last one. *)
Lemma retry_loop_failures self req n : forall retry rest w,
  (retry + n <= MAX_RETRIES - 1)%nat ->
  (forall k, (k < n)%nat -> failed (net w (calls w + k)) = true) ->
  exists w',
    retry_loop self req (seq retry n ++ rest) w = retry_loop self req rest w' /\
    calls w' = (calls w + n)%nat /\ draws w' = (draws w + n)%nat /\
    net w' = net w /\ rng w' = rng w /\ fs w' = fs w /\
    config_file w' = config_file w /\ cwd w' = cwd w /\
    exists evs,
      trace w' = trace w ++ evs /\
      effects evs = backoff (bot self) req (rng w) (draws w) retry n.
Proof.
  induction n as [|n IH]; intros retry rest w Hlast Hfail.
  - exists w. rewrite !Nat.add_0_r. repeat split; try done.
    exists []. by rewrite app_nil_r.
  - cbn [seq app]. rewrite retry_loop_cons.
    pose proof (Hfail 0%nat ltac:(lia)) as Hfirst.
    rewrite Nat.add_0_r in Hfirst. rewrite Hfirst.
    destruct (after_failure_not_last (bot self) req retry w)
      as (Hc & Hd & Hn & Hr & Hf & Hcf & Hcw & evs & Htr & Hev); [lia|].
    destruct (IH (S retry) rest (after_failure (bot self) req retry w))
      as (w' & Hloop & Hc' & Hd' & Hn' & Hr' & Hf' & Hcf' & Hcw' & evs' & Htr' & Hev');
      [lia| |].
    { intros k Hk. rewrite Hn, Hc.
      replace (S (calls w) + k)%nat with (calls w + S k)%nat by lia.
      apply Hfail. lia. }
    exists w'. split; [done|].
    rewrite Hc', Hd', Hn', Hr', Hf', Hcf', Hcw', Hc, Hd.
    repeat split; try done; try lia.
    exists (evs ++ evs'). split.
    + by rewrite Htr', Htr, app_assoc.
    + rewrite effects_app, Hev, Hev', Hr, Hd. reflexivity.
Qed.

Lemma retries_split N :
  (N < MAX_RETRIES)%nat ->
  seq 0 MAX_RETRIES = seq 0 N ++ N :: seq (S N) (MAX_RETRIES - S N).
Proof.
  intros H. replace MAX_RETRIES with (N + S (MAX_RETRIES - S N))%nat at 1 by lia.
  by rewrite seq_app.
Qed.

Lemma send_with_retry_success self req w N :
  (N < MAX_RETRIES)%nat ->
  (forall k, (k < N)%nat -> failed (net w (calls w + k)) = true) ->
  failed (net w (calls w + N)) = false ->
  exists w',
    _send_with_retry self req w = (Ok true, w') /\
    calls w' = (calls w + N + 1)%nat /\
    effects (added w w') =
      backoff (bot self) req (rng w) (draws w) 0 N ++ [EvCall (bot self) req].
Proof.
  intros HN Hfail Hsucc. unfold _send_with_retry. rewrite (retries_split N HN).
  destruct (retry_loop_failures self req N 0
              (N :: seq (S N) (MAX_RETRIES - S N)) w)
    as (w1 & Hloop & Hc & _ & Hn & _ & _ & _ & _ & evs & Htr & Hev);
    [lia|done|].
  rewrite Hloop, retry_loop_cons, Hn, Hc, Hsucc.
  destruct (after_success_effects (bot self) req w1)
    as (Hc' & _ & _ & _ & _ & _ & _ & evs' & Htr' & Hev').
  eexists. split; [reflexivity|]. split; [lia|].
  rewrite (added_app w _ (evs ++ evs')).
  - by rewrite effects_app, Hev, Hev'.
  - by rewrite Htr', Htr, app_assoc.
Qed.

Lemma send_with_retry_exhausted self req w :
  (forall k, (k < MAX_RETRIES)%nat -> failed (net w (calls w + k)) = true) ->
  exists w',
    _send_with_retry self req w = (Ok false, w') /\
    calls w' = (calls w + MAX_RETRIES)%nat /\
    effects (added w w') =
      backoff (bot self) req (rng w) (draws w) 0 (MAX_RETRIES - 1)
        ++ [EvCall (bot self) req].
Proof.
  intros Hfail. unfold _send_with_retry.
  rewrite (retries_split (MAX_RETRIES - 1)) by (unfold MAX_RETRIES; lia).
  destruct (retry_loop_failures self req (MAX_RETRIES - 1) 0
              [(MAX_RETRIES - 1)%nat] w)
    as (w1 & Hloop & Hc & _ & Hn & _ & _ & _ & _ & evs & Htr & Hev);
    [lia|intros k Hk; apply Hfail; lia|].
  change (seq (S (MAX_RETRIES - 1)) (MAX_RETRIES - S (MAX_RETRIES - 1)))
    with (@nil nat).
  rewrite Hloop, retry_loop_cons, Hn, Hc, Hfail by (unfold MAX_RETRIES; lia).
  destruct (after_failure_last (bot self) req w1)
    as (Hc' & _ & _ & _ & _ & _ & _ & evs' & Htr' & Hev').
  eexists. split; [reflexivity|]. split; [unfold MAX_RETRIES in *; lia|].
  rewrite (added_app w _ (evs ++ evs')).
  - by rewrite effects_app, Hev, Hev'.
  - by rewrite Htr', Htr, app_assoc.
Qed.

Lemma retry_delays_ordered retry r r' :
  (retry < MAX_RETRIES - 1)%nat ->
  (0 <= r)%Q -> (r < 1)%Q -> (0 <= r')%Q -> (r' < 1)%Q ->
  (inject_Z (2 ^ Z.of_nat retry) <= retry_delay retry (uniform_value 0 1 r))%Q /\
  (retry_delay retry (uniform_value 0 1 r) <= inject_Z (2 ^ Z.of_nat retry) + 1)%Q /\
  (retry_delay retry (uniform_value 0 1 r) <=
   retry_delay (S retry) (uniform_value 0 1 r'))%Q.
Proof.
  intros Hretry Hr0 Hr1 Hr0' Hr1'. change MAX_RETRIES with 3%nat in Hretry.
  destruct (uniform_value_unit r) as [Hj0 Hj1]; [lra..|].
  destruct (uniform_value_unit r') as [Hj0' Hj1']; [lra..|].
  destruct (retry_delay_between retry (uniform_value 0 1 r))
    as [Hl Hu]; [lia|exact Hj0|exact Hj1|].
  destruct (retry_delay_between (S retry) (uniform_value 0 1 r'))
    as [Hl' _]; [lia|exact Hj0'|exact Hj1'|].
  split; [exact Hl|]. split; [exact Hu|].
  rewrite Nat2Z.inj_succ, Z.pow_succ_r, inject_Z_mult in Hl' by lia.
  assert (Hpow : (1 <= inject_Z (2 ^ Z.of_nat retry))%Q).
  { change 1%Q with (inject_Z 1). rewrite <- Zle_Qle.
    pose proof (Z.pow_pos_nonneg 2 (Z.of_nat retry)). lia. }
  change (inject_Z 2) with 2%Q in Hl'. lra.
Qed.

(** C2.  The retry wrapper invokes the transport at most three times and
    always returns.  When the first [N < 3] invocations fail (they raise,
    or return something that is not a dict with "errcode" equal to 0) and
    the next one succeeds, it returns [True] after exactly [N + 1]
    invocations, and between two invocations it sleeps once, after failed
    attempt [k] for [1 * 2^k] seconds plus a jitter drawn for that
    attempt.  When three invocations fail it returns [False] after exactly
    three, having slept after the first and the second only.  The delay
    is a float sum: with the jitter drawn from [0, 1) the delay after
    attempt [k] lies between [2^k] and [2^k + 1], both ends included,
    and the delay after the second attempt is not smaller than the delay
    after the first; the two can be equal, see [equal_retry_delays]. *)
Theorem send_with_retry_attempts self req w :
  (exists sent w',
     _send_with_retry self req w = (Ok sent, w') /\
     (calls w < calls w' <= calls w + 3)%nat) /\
  (forall N,
     (N < 3)%nat ->
     (forall k, (k < N)%nat -> failed (net w (calls w + k)) = true) ->
     failed (net w (calls w + N)) = false ->
     exists w',
       _send_with_retry self req w = (Ok true, w') /\
       calls w' = (calls w + N + 1)%nat /\
       effects (added w w') =
         backoff (bot self) req (rng w) (draws w) 0 N
           ++ [EvCall (bot self) req]) /\
  ((forall k, (k < 3)%nat -> failed (net w (calls w + k)) = true) ->
   exists w',
     _send_with_retry self req w = (Ok false, w') /\
     calls w' = (calls w + 3)%nat /\
     effects (added w w') =
       backoff (bot self) req (rng w) (draws w) 0 2
         ++ [EvCall (bot self) req]) /\
  (failed Chatbot.Raises = true /\
   failed (Chatbot.Returns Chatbot.NotDict) = true /\
   (forall errmsg, failed (Chatbot.Returns (Chatbot.Dict None errmsg)) = true) /\
   forall z errmsg,
     failed (Chatbot.Returns (Chatbot.Dict (Some (Chatbot.PInt z)) errmsg)) =
     negb (z =? 0)%Z) /\
  (forall retry r,
     (retry < MAX_RETRIES - 1)%nat -> (0 <= r)%Q -> (r < 1)%Q ->
     (inject_Z (2 ^ Z.of_nat retry)
        <= retry_delay retry (uniform_value 0 1 r))%Q /\
     (retry_delay retry (uniform_value 0 1 r)
        <= inject_Z (2 ^ Z.of_nat retry) + 1)%Q) /\
  (forall retry r r',
     (S retry < MAX_RETRIES - 1)%nat ->
     (0 <= r)%Q -> (r < 1)%Q -> (0 <= r')%Q -> (r' < 1)%Q ->
     (retry_delay retry (uniform_value 0 1 r) <=
      retry_delay (S retry) (uniform_value 0 1 r'))%Q).
Proof.
  assert (Hsucc := send_with_retry_success self req w).
  assert (Hexh := send_with_retry_exhausted self req w).
  change MAX_RETRIES with 3%nat in *. change (3 - 1)%nat with 2%nat in *.
  split; [|split; [exact Hsucc|split; [exact Hexh|split; [|split]]]].
  - destruct (failed (net w (calls w + 0))) eqn:H0;
      [destruct (failed (net w (calls w + 1))) eqn:H1;
        [destruct (failed (net w (calls w + 2))) eqn:H2|]|].
    + destruct Hexh as (w' & Hrun & Hc & _).
      { intros k Hk.
        destruct k as [|[|[|k]]]; [exact H0|exact H1|exact H2|lia]. }
      exists false, w'. split; [exact Hrun|lia].
    + destruct (Hsucc 2%nat) as (w' & Hrun & Hc & _); [lia| |exact H2|].
      { intros k Hk. destruct k as [|[|k]]; [exact H0|exact H1|lia]. }
      exists true, w'. split; [exact Hrun|lia].
    + destruct (Hsucc 1%nat) as (w' & Hrun & Hc & _); [lia| |exact H1|].
      { intros k Hk. destruct k as [|k]; [exact H0|lia]. }
      exists true, w'. split; [exact Hrun|lia].
    + destruct (Hsucc 0%nat) as (w' & Hrun & Hc & _); [lia| |exact H0|].
      { intros k Hk. lia. }
      exists true, w'. split; [exact Hrun|lia].
  - repeat split.
  - intros retry r Hretry Hr0 Hr1. change (3 - 1)%nat with 2%nat in Hretry.
    destruct (retry_delays_ordered retry r r) as (Hl & Hu & _);
      [unfold MAX_RETRIES; lia|assumption..|].
    split; [exact Hl|exact Hu].
  - intros retry r r' Hretry Hr0 Hr1 Hr0' Hr1'.
    change (3 - 1)%nat with 2%nat in Hretry.
    apply retry_delays_ordered; [unfold MAX_RETRIES; lia|assumption..].
Qed.

Lemma send_with_retry_attempts_witness :
  let req := Chatbot.send_text (u "hello") None false in
  let w := sample_world ∅ Config.Missing flaky in
  let w0 := sample_world ∅ Config.Missing (always rejects) in
  ((2 < 3)%nat /\
   (forall k, (k < 2)%nat -> failed (net w (calls w + k)) = true) /\
   failed (net w (calls w + 2)) = false /\
   exists w',
     _send_with_retry sample_bot req w = (Ok true, w') /\
     calls w' = 3%nat /\
     effects (added w w') =
       [EvCall (bot sample_bot) req;
        EvSleep (retry_delay 0 (uniform_value 0 1 (1 # 2)));
        EvCall (bot sample_bot) req;
        EvSleep (retry_delay 1 (uniform_value 0 1 (1 # 2)));
        EvCall (bot sample_bot) req]) /\
  ((forall k, (k < 3)%nat -> failed (net w0 (calls w0 + k)) = true) /\
   exists w',
     _send_with_retry sample_bot req w0 = (Ok false, w') /\
     calls w' = 3%nat) /\
  ((1 < MAX_RETRIES - 1)%nat /\ (0 <= 1 # 2)%Q /\ (1 # 2 < 1)%Q /\
   (retry_delay 0 (uniform_value 0 1 (1 # 2)) <=
    retry_delay 1 (uniform_value 0 1 (1 # 2)))%Q).
Proof.
  intros req w w0.
  assert (Hlt : (2 < 3)%nat) by lia.
  assert (Hfail : forall k, (k < 2)%nat -> failed (net w (calls w + k)) = true).
  { intros k Hk. destruct k as [|[|k]]; [reflexivity|reflexivity|lia]. }
  assert (Hok : failed (net w (calls w + 2)) = false) by reflexivity.
  assert (Hall : forall k, (k < 3)%nat -> failed (net w0 (calls w0 + k)) = true).
  { intros k Hk. reflexivity. }
  assert (H0 : (0 <= 1 # 2)%Q) by (vm_compute; discriminate).
  assert (H1 : (1 # 2 < 1)%Q) by reflexivity.
  assert (Hr : (1 < MAX_RETRIES - 1)%nat) by (unfold MAX_RETRIES; lia).
  destruct (send_with_retry_attempts sample_bot req w)
    as (_ & Hsucc & _ & _ & _ & Hdelay).
  destruct (send_with_retry_attempts sample_bot req w0)
    as (_ & _ & Hexh & _).
  split; [|split].
  - split; [exact Hlt|]. split; [exact Hfail|]. split; [exact Hok|].
    destruct (Hsucc 2%nat Hlt Hfail Hok) as (w' & Hrun & Hc & Hev).
    exists w'. split; [exact Hrun|]. split; [exact Hc|exact Hev].
  - split; [exact Hall|].
    destruct (Hexh Hall) as (w' & Hrun & Hc & _).
    exists w'. split; [exact Hrun|exact Hc].
  - split; [exact Hr|]. split; [exact H0|]. split; [exact H1|].
    exact (Hdelay 0%nat (1 # 2) (1 # 2) Hr H0 H1 H0 H1).
Defined.

(** The first random number is the largest that [random.random()]
    returns, 1 - 2^-53, and the second is 0: the wrapper sleeps exactly
    two seconds after the first failed attempt, [1 + (1 - 2^-53)] being
    rounded to 2, and exactly two seconds after the second.  The delays
    have not increased. *)
Lemma equal_retry_delays :
  let req := Chatbot.send_text (u "hello") None false in
  let draw :=
    fun k : nat =>
      match k with 0%nat => (1 - (1 # 2 ^ 53))%Q | _ => 0%Q end in
  let w := World ∅ Config.Missing (u "/") (always rejects) draw 0 0 [] in
  (forall k, (0 <= rng w k)%Q /\ (rng w k < 1)%Q /\
             Float64.round64 (rng w k) = rng w k) /\
  effects (added w (snd (_send_with_retry sample_bot req w))) =
    [EvCall (bot sample_bot) req; EvSleep 2;
     EvCall (bot sample_bot) req; EvSleep 2;
     EvCall (bot sample_bot) req] /\
  ~ (retry_delay 0 (uniform_value 0 1 (rng w 0)) <
     retry_delay 1 (uniform_value 0 1 (rng w 1)))%Q.
Proof.
  intros req draw w. split; [|split].
  - intros [|k]; (split; [vm_compute; discriminate|]);
      (split; [reflexivity|vm_compute; reflexivity]).
  - vm_compute. reflexivity.
  - vm_compute. discriminate.
Qed.



End Retry.

(* ===================================================================== *)
(** * Sending: [send_markdown_with_image] and [send_text] *)
(* ===================================================================== *)

Section Sending.

Import DingTalkBotEnhanced.

Implicit Types (w : world) (self : t) (req : Chatbot.request).

Lemma stable_refl w : stable w w.
Proof. by repeat split. Qed.

Lemma stable_trans w1 w2 w3 : stable w1 w2 -> stable w2 w3 -> stable w1 w3.
Proof.
  intros (H1 & H2 & H3 & H4 & H5) (H1' & H2' & H3' & H4' & H5').
  repeat split; congruence.
Qed.

Lemma stable_emit e w : stable w (emit e w).
Proof. by repeat split. Qed.

Lemma stable_after_validation url w : stable w (after_validation url w).
Proof.
  unfold after_validation.
  destruct (is_https url && negb (is_blocked url) && negb (is_whitelisted url));
    [apply stable_emit|apply stable_refl].
Qed.

Lemma calls_after_validation url w : calls (after_validation url w) = calls w.
Proof.
  unfold after_validation.
  by destruct (is_https url && negb (is_blocked url) && negb (is_whitelisted url)).
Qed.

Lemma trace_after_validation url w :
  exists evs,
    trace (after_validation url w) = trace w ++ evs /\ effects evs = [].
Proof.
  unfold after_validation.
  destruct (is_https url && negb (is_blocked url) && negb (is_whitelisted url)).
  - by eexists [_].
  - exists []. by rewrite app_nil_r.
Qed.

(** The retry wrapper returns, whatever the transport does, and leaves
    the environment as it is. *)
Lemma send_with_retry_returns self req w :
  exists sent w',
    _send_with_retry self req w = (Ok sent, w') /\ stable w w' /\
    (calls w < calls w' <= calls w + 3)%nat.
Proof.
  unfold _send_with_retry. change (seq 0 MAX_RETRIES) with [0; 1; 2]%nat.
  assert (Hfail : forall retry v, stable v (after_failure (bot self) req retry v)
                    /\ calls (after_failure (bot self) req retry v) = S (calls v)).
  { intros retry v. unfold after_failure, after_wait.
    by destruct (retry <? MAX_RETRIES - 1)%nat. }
  assert (Hsucc : forall v, stable v (after_success (bot self) req v)
                    /\ calls (after_success (bot self) req v) = S (calls v))
    by done.
  rewrite retry_loop_cons. destruct (failed (net w (calls w))).
  2: { eexists _, _. split; [reflexivity|].
       destruct (Hsucc w) as [? ->]. split; [done|lia]. }
  destruct (Hfail 0%nat w) as [Hs1 Hc1].
  set (w1 := after_failure (bot self) req 0 w) in *.
  rewrite retry_loop_cons. destruct (failed (net w1 (calls w1))).
  2: { eexists _, _. split; [reflexivity|].
       destruct (Hsucc w1) as [? ->]. split; [by eapply stable_trans|lia]. }
  destruct (Hfail 1%nat w1) as [Hs2 Hc2].
  set (w2 := after_failure (bot self) req 1 w1) in *.
  rewrite retry_loop_cons. destruct (failed (net w2 (calls w2))).
  2: { eexists _, _. split; [reflexivity|].
       destruct (Hsucc w2) as [? ->].
       split; [eauto using stable_trans|lia]. }
  destruct (Hfail 2%nat w2) as [Hs3 Hc3].
  eexists _, _. split; [reflexivity|].
  split; [eauto using stable_trans|lia].
Qed.

(** [send_markdown_with_image], step by step. *)
Lemma send_markdown_with_image_eval self title content img_url
    image_placeholder at_mobiles is_at_all w :
  send_markdown_with_image self title content img_url image_placeholder
    at_mobiles is_at_all w =
  if fst (validation img_url) then
    _send_with_retry self
      (Chatbot.send_markdown title
         (composed content img_url image_placeholder)
         (if is_at_all then None else at_mobiles) is_at_all)
      (emit (EvLog DEBUG (compose_log content image_placeholder))
         (emit (EvLog INFO (snd (validation img_url)))
            (after_validation img_url w)))
  else
    (Ok false,
     emit (EvLog ERROR (snd (validation img_url)))
       (after_validation img_url w)).
Proof.
  unfold send_markdown_with_image, bind. rewrite validate_image_url_eval.
  destruct (validation img_url) as [[|] msg]; cbn [fst snd negb log ret];
    [|reflexivity].
  unfold compose, composed, compose_log, image_block.
  destruct (contains image_placeholder content); cbn [log ret];
    destruct is_at_all; reflexivity.
Qed.

Lemma send_markdown_with_image_returns self title content img_url
    image_placeholder at_mobiles is_at_all w :
  exists sent w',
    send_markdown_with_image self title content img_url image_placeholder
      at_mobiles is_at_all w = (Ok sent, w') /\
    stable w w' /\ (calls w <= calls w')%nat /\
    (fst (validation img_url) = false -> sent = false /\ calls w' = calls w).
Proof.
  rewrite send_markdown_with_image_eval.
  destruct (fst (validation img_url)).
  - match goal with |- context [_send_with_retry ?s ?r ?v] =>
      destruct (send_with_retry_returns s r v) as (sent & w' & -> & Hs & Hc)
    end.
    exists sent, w'. split; [reflexivity|].
    cbn [calls emit] in Hc. rewrite calls_after_validation in Hc.
    split; [|split; [lia|done]].
    eapply stable_trans; [|exact Hs].
    eapply stable_trans; [apply stable_after_validation|].
    eapply stable_trans; apply stable_emit.
  - eexists _, _. split; [reflexivity|].
    cbn [calls emit]. rewrite calls_after_validation.
    split; [|split; [lia|done]].
    eapply stable_trans; [apply stable_after_validation|apply stable_emit].
Qed.




End Sending.

(* ===================================================================== *)
(** * The orchestrator: [load_config], the dispatch loop and [main] *)
(* ===================================================================== *)

Section Orchestrator.

Import DingTalkBotEnhanced.

Implicit Types (w : world) (config : list Config.item).

Ltac fields :=
  cbn [destination Config.webhook Config.secret Config.template Config.title
       Config.at_mobiles Config.is_at_all getitem].

(** ** One destination *)

Lemma init_constructed webhook secret w :
  constructible webhook = true ->
  init webhook secret w =
  (Ok {| bot := Chatbot.Build webhook secret |},
   emit (EvLog INFO (u "✅ 钉钉机器人初始化成功 | 加签: %s")) w).
Proof. unfold constructible, init. by intros ->. Qed.

Lemma init_refused webhook secret w :
  constructible webhook = false -> init webhook secret w = (Raise ValueError, w).
Proof. unfold constructible, init. by intros ->. Qed.

(** A destination whose webhook has no "access_token": the client is not
    constructed. *)
Lemma visit_skipped img_url webhook secret template title at_mobiles
    is_at_all w :
  constructible webhook = false ->
  visit img_url
    (destination webhook secret template title at_mobiles is_at_all) w =
  (Ok None, emit (EvLog ERROR (u "❌ 处理第 %d 项时出错: %s | Webhook: %s")) w).
Proof.
  intros H. unfold visit.
  erewrite try_except_raised.
  - fields. rewrite bind_ret, bind_log. reflexivity.
  - fields. rewrite !bind_ret.
    apply bind_raised, init_refused, H.
Qed.

(** A destination whose client is constructed: the message is sent. *)
Lemma visit_sent img_url webhook secret template title at_mobiles
    is_at_all w sent w' :
  constructible webhook = true ->
  send_markdown_with_image {| bot := Chatbot.Build webhook secret |} title
    template img_url DEFAULT_IMAGE_PLACEHOLDER at_mobiles is_at_all
    (emit (EvLog INFO (u "✅ 钉钉机器人初始化成功 | 加签: %s")) w) = (Ok sent, w') ->
  visit img_url
    (destination webhook secret template title at_mobiles is_at_all) w =
  (Ok (Some sent), w').
Proof.
  intros H Hsend. unfold visit.
  apply try_except_ok. fields. rewrite !bind_ret.
  rewrite (bind_ok _ _ _ _ _ (init_constructed _ secret w H)), !bind_ret.
  by rewrite (bind_ok _ _ _ _ _ Hsend).
Qed.

Lemma constructed_unfold w :
  constructed w =
  emit (EvLog INFO (u "✅ 钉钉机器人初始化成功 | 加签: %s"))
    (emit (EvLog INFO (u "
[+] 处理第 %d 个配置项（Webhook: %s...）")) w).
Proof. unfold constructed, MSG_PROCESSING. reflexivity. Qed.

Lemma skipped_unfold w :
  skipped w =
  emit (EvLog ERROR (u "❌ 处理第 %d 项时出错: %s | Webhook: %s"))
    (emit (EvLog INFO (u "
[+] 处理第 %d 个配置项（Webhook: %s...）")) w).
Proof. unfold skipped, MSG_PROCESSING. reflexivity. Qed.

Lemma dispatch_skipped img_url webhook secret template title at_mobiles
    is_at_all rest success_count w :
  constructible webhook = false ->
  dispatch img_url
    (destination webhook secret template title at_mobiles is_at_all :: rest)
    success_count w =
  dispatch img_url rest success_count (skipped w).
Proof.
  intros H. cbn [dispatch]. fields. rewrite bind_ret, bind_log.
  rewrite (bind_ok _ _ _ _ _ (visit_skipped _ _ _ _ _ _ _ _ H)).
  rewrite (skipped_unfold w). reflexivity.
Qed.

Lemma dispatch_sent img_url webhook secret template title at_mobiles
    is_at_all rest success_count w sent w' :
  constructible webhook = true ->
  send_markdown_with_image {| bot := Chatbot.Build webhook secret |} title
    template img_url DEFAULT_IMAGE_PLACEHOLDER at_mobiles is_at_all
    (constructed w) = (Ok sent, w') ->
  dispatch img_url
    (destination webhook secret template title at_mobiles is_at_all :: rest)
    success_count w =
  dispatch img_url rest (if sent then S success_count else success_count)
    (paced w').
Proof.
  intros H Hsend. cbn [dispatch]. fields. rewrite bind_ret, bind_log.
  rewrite (constructed_unfold w) in Hsend.
  rewrite (bind_ok _ _ _ _ _ (visit_sent _ _ _ _ _ _ _ _ _ _ H Hsend)).
  rewrite bind_uniform, bind_log, bind_sleep.
  unfold paced, pace_delay. reflexivity.
Qed.

Lemma stable_paced w : stable w (paced w).
Proof. by repeat split. Qed.

Lemma stable_skipped w : stable w (skipped w).
Proof. by repeat split. Qed.

Lemma stable_constructed w : stable w (constructed w).
Proof. by repeat split. Qed.

Lemma pace_delay_bounds w :
  (0 <= rng w (draws w))%Q -> (rng w (draws w) < 1)%Q ->
  (1 <= pace_delay w)%Q /\ (pace_delay w <= 3)%Q.
Proof.
  unfold pace_delay, PUSH_INTERVAL_MIN, PUSH_INTERVAL_MAX.
  intros H0 H1. apply uniform_value_pace; lra.
Qed.

(** C9, as the code has it.  After a destination whose client was
    constructed, whether its send succeeded or failed, the next
    destination is processed only after a pacing sleep of
    [uniform(1, 3)] seconds, a duration between 1 and 3.  After a
    destination whose client could not be constructed the [except]
    clause ends with [continue]: the next destination is processed at
    once, without a sleep. *)
Theorem pacing_follows_each_send img_url webhook secret template title
    at_mobiles is_at_all rest success_count w :
  (constructible webhook = true ->
   exists sent w',
     send_markdown_with_image {| bot := Chatbot.Build webhook secret |} title
       template img_url DEFAULT_IMAGE_PLACEHOLDER at_mobiles is_at_all
       (constructed w) = (Ok sent, w') /\
     dispatch img_url
       (destination webhook secret template title at_mobiles is_at_all :: rest)
       success_count w =
     dispatch img_url rest (if sent then S success_count else success_count)
       (paced w') /\
     effects (added w' (paced w')) = [EvSleep (pace_delay w')] /\
     stable w w' /\
     ((0 <= rng w' (draws w'))%Q -> (rng w' (draws w') < 1)%Q ->
      (1 <= pace_delay w')%Q /\ (pace_delay w' <= 3)%Q)) /\
  (constructible webhook = false ->
   dispatch img_url
     (destination webhook secret template title at_mobiles is_at_all :: rest)
     success_count w =
   dispatch img_url rest success_count (skipped w) /\
   effects (added w (skipped w)) = []).
Proof.
  split; intros H.
  - destruct (send_markdown_with_image_returns
                {| bot := Chatbot.Build webhook secret |} title template
                img_url DEFAULT_IMAGE_PLACEHOLDER at_mobiles is_at_all
                (constructed w)) as (sent & w' & Hsend & Hstable & _).
    exists sent, w'. split; [exact Hsend|]. split; [|split; [|split]].
    + by apply dispatch_sent.
    + unfold added, paced. cbn [trace emit set_draws].
      rewrite <- app_assoc, drop_app_length. reflexivity.
    + eapply stable_trans; [apply stable_constructed|exact Hstable].
    + apply pace_delay_bounds.
  - split; [by apply dispatch_skipped|].
    unfold added, skipped. cbn [trace emit].
    rewrite <- app_assoc, drop_app_length. reflexivity.
Qed.

Lemma pacing_follows_each_send_witness :
  let w := sample_world ∅ Config.Missing (always rejects) in
  (constructible good_webhook = true /\
   exists (sent : bool) w',
     dispatch sample_url [sample_destination good_webhook] 0 w =
     dispatch sample_url [] (if sent then 1%nat else 0%nat) (paced w') /\
     (1 <= pace_delay w')%Q /\ (pace_delay w' <= 3)%Q) /\
  (constructible bad_webhook = false /\
   dispatch sample_url [sample_destination bad_webhook] 0 w =
   dispatch sample_url [] 0 (skipped w)).
Proof.
  intros w. split.
  - assert (H : constructible good_webhook = true) by (vm_compute; reflexivity).
    split; [exact H|].
    destruct (proj1 (pacing_follows_each_send sample_url good_webhook None
                       (u "Today: {IMAGE_URL}") DEFAULT_TITLE (Some []) false
                       [] 0 w) H)
      as (sent & w' & _ & Hstep & _ & Hstable & Hbounds).
    exists sent, w'. split; [exact Hstep|].
    destruct Hstable as (_ & _ & _ & _ & Hrng).
    apply Hbounds; rewrite Hrng; vm_compute; [discriminate|reflexivity].
  - assert (H : constructible bad_webhook = false) by (vm_compute; reflexivity).
    split; [exact H|].
    exact (proj1 (proj2 (pacing_follows_each_send sample_url bad_webhook None
                           (u "Today: {IMAGE_URL}") DEFAULT_TITLE (Some [])
                           false [] 0 w) H)).
Defined.

(** C9 as stated does not hold: the first destination has a webhook
    without "access_token", its client is not constructed, and the second
    destination is contacted with no sleep in between; the one pacing
    sleep of the run comes after the second destination. *)
Lemma no_pacing_after_failed_construction :
  let w := sample_world ∅ Config.Missing (always accepts) in
  let run :=
    dispatch sample_url
      [sample_destination bad_webhook; sample_destination good_webhook] 0 w in
  fst run = Ok 1%nat /\
  effects (added w (snd run)) =
    [EvCall (Chatbot.Build good_webhook None)
       (Chatbot.send_markdown DEFAULT_TITLE
          (u "Today: https://cdn.example.com/a.jpg") (Some []) false);
     EvSleep (uniform_value 1 3 (1 # 2))].
Proof. vm_compute. split; reflexivity. Qed.

(** ** The whole loop *)

(** On the entries that [load_config] hands on, the loop runs to its end
    and returns the number of successes, whatever the transport does. *)
Lemma dispatch_returns img_url config :
  Forall complete config ->
  forall success_count w,
    exists count w',
      dispatch img_url config success_count w = (Ok count, w') /\
      stable w w' /\
      (success_count <= count <= success_count + length config)%nat /\
      (fst (validation img_url) = false ->
       count = success_count /\ calls w' = calls w).
Proof.
  induction 1 as [|item rest Hitem _ IH]; intros success_count w.
  - exists success_count, w. split; [reflexivity|].
    split; [apply stable_refl|]. split; [simpl; lia|done].
  - destruct Hitem as [webhook secret template title at_mobiles is_at_all].
    destruct (constructible webhook) eqn:Hc.
    + destruct (send_markdown_with_image_returns
                  {| bot := Chatbot.Build webhook secret |} title template
                  img_url DEFAULT_IMAGE_PLACEHOLDER at_mobiles is_at_all
                  (constructed w)) as (sent & w1 & Hsend & Hs1 & _ & Hinv).
      rewrite (dispatch_sent _ _ _ _ _ _ _ _ _ _ _ _ Hc Hsend).
      destruct (IH (if sent then S success_count else success_count) (paced w1))
        as (count & w' & Hrun & Hs & Hcount & Hinv').
      exists count, w'. split; [exact Hrun|]. split; [|split].
      * eapply stable_trans; [apply stable_constructed|].
        eapply stable_trans; [exact Hs1|].
        eapply stable_trans; [apply stable_paced|exact Hs].
      * cbn [length]. destruct sent; lia.
      * intros Hbad. destruct (Hinv Hbad) as [-> Hcalls].
        destruct (Hinv' Hbad) as [-> Hcalls'].
        split; [reflexivity|]. rewrite Hcalls'.
        cbn [calls paced emit set_draws]. rewrite Hcalls. reflexivity.
    + rewrite (dispatch_skipped _ _ _ _ _ _ _ _ _ _ Hc).
      destruct (IH success_count (skipped w))
        as (count & w' & Hrun & Hs & Hcount & Hinv').
      exists count, w'. split; [exact Hrun|]. split; [|split].
      * eapply stable_trans; [apply stable_skipped|exact Hs].
      * cbn [length]. lia.
      * intros Hbad. destruct (Hinv' Hbad) as [-> Hcalls'].
        split; [reflexivity|]. rewrite Hcalls'. reflexivity.
Qed.



(** ** [load_config] *)

Lemma accepted_item_complete e item :
  accepted_item e = Some item -> complete item.
Proof.
  destruct e as [|[webhook secret template title at_mobiles is_at_all]];
    [done|].
  unfold accepted_item, missing_fields. cbn [Config.webhook Config.secret Config.template].
  destruct webhook, secret, template; try done.
  intros [= <-]. apply complete_destination.
Qed.

Lemma valid_config_complete src config :
  valid_config src = Some config -> Forall complete config.
Proof.
  destruct src as [| | |entries]; try done. intros [= <-].
  apply Forall_forall. intros item (e & _ & He)%list_elem_of_omap.
  by eapply accepted_item_complete.
Qed.

Lemma validate_items_eval entries : forall valid w,
  exists w',
    validate_items entries valid w =
      (Ok (valid ++ omap accepted_item entries), w') /\
    stable w w'.
Proof.
  induction entries as [|e entries IH]; intros valid w.
  - exists w. cbn [validate_items omap list_omap]. rewrite app_nil_r.
    split; [reflexivity|apply stable_refl].
  - destruct e as [|item].
    + cbn [validate_items]. rewrite bind_log.
      destruct (IH valid (emit (EvLog WARNING (u "⚠️ 第 %d 项不是字典格式，已跳过")) w))
        as (w' & Hrun & Hs).
      exists w'. split; [exact Hrun|].
      eapply stable_trans; [apply stable_emit|exact Hs].
    + cbn [validate_items omap list_omap accepted_item].
      destruct (missing_fields item).
      * destruct (IH (valid ++ [with_defaults item]) w) as (w' & Hrun & Hs).
        exists w'. rewrite Hrun, <- app_assoc. by split.
      * rewrite bind_log.
        destruct (IH valid (emit (EvLog WARNING (u "⚠️ 第 %d 项缺少字段: %s，已跳过")) w))
          as (w' & Hrun & Hs).
        exists w'. split; [exact Hrun|].
        eapply stable_trans; [apply stable_emit|exact Hs].
Qed.

Lemma load_config_ok w config :
  valid_config (config_file w) = Some config ->
  exists w', load_config w = (Ok config, w') /\ stable w w'.
Proof.
  unfold valid_config, load_config.
  destruct (config_file w) as [| | |entries]; try done. intros [= <-].
  destruct (validate_items_eval entries [] w) as (w1 & Hrun & Hs).
  rewrite (bind_ok _ _ _ _ _ Hrun), bind_log. cbn [app].
  eexists. split; [reflexivity|].
  eapply stable_trans; [exact Hs|apply stable_emit].
Qed.

Lemma load_config_raises w :
  valid_config (config_file w) = None ->
  exists e, load_config w = (Raise e, w).
Proof.
  unfold valid_config, load_config.
  destruct (config_file w); try done; by eexists.
Qed.

(** ** [pop_first_url], whatever the file *)

Lemma pop_first_url_returns file_path w :
  exists w',
    pop_first_url file_path w = (Ok (queue_head (fs w) file_path), w') /\
    config_file w' = config_file w /\ net w' = net w /\ rng w' = rng w.
Proof.
  unfold queue_head. destruct (fs w !! file_path) as [content|] eqn:Hfile.
  - rewrite (pop_first_url_found _ _ _ Hfile).
    destruct (queue_lines content) as [|current_url remaining];
      eexists; (split; [reflexivity|done]).
  - unfold pop_first_url, bind.
    rewrite (path_exists_absent _ _ Hfile). cbn [negb].
    eexists. split; [reflexivity|done].
Qed.

Lemma queue_head_nonempty files file_path url :
  queue_head files file_path = Some url -> url <> [].
Proof.
  unfold queue_head. destruct (files !! file_path) as [content|]; [|done].
  intros Hhead. destruct (queue_lines content) as [|l ls] eqn:Hlines; [done|].
  injection Hhead as ->.
  assert (Hclean : clean url).
  { apply (queue_lines_clean content). rewrite Hlines. left. }
  by destruct Hclean.
Qed.

(** ** [main] *)

Section Main.

Variable SCRIPT_DIR : str.

Lemma run_eval w :
  match expected_outcome (queue_head (fs w) (IMAGE_URL_FILE SCRIPT_DIR))
          (valid_config (config_file w)) with
  | Some code => exists w', run SCRIPT_DIR w = (Ok code, w')
  | None => exists e w', run SCRIPT_DIR w = (Raise e, w')
  end.
Proof.
  unfold run. rewrite bind_log.
  destruct (pop_first_url_returns (IMAGE_URL_FILE SCRIPT_DIR)
              (emit (EvLog INFO (u "🚀 钉钉每日推送脚本启动")) w))
    as (w2 & Hpop & Hcfg & _).
  rewrite (bind_ok _ _ _ _ _ Hpop). cbn [fs config_file emit] in *.
  destruct (queue_head (fs w) (IMAGE_URL_FILE SCRIPT_DIR))
    as [url|] eqn:Hhead; cbn [expected_outcome].
  2: { rewrite bind_log. eexists. reflexivity. }
  destruct url as [|c url]; [by apply queue_head_nonempty in Hhead|].
  rewrite bind_log.
  destruct (valid_config (config_file w)) as [config|] eqn:Hloaded.
  - destruct (load_config_ok
                (emit (EvLog INFO (u "🎯 本次运行统一使用图片URL: %s")) w2) config)
      as (w3 & Hload & _).
    { cbn [config_file emit]. by rewrite Hcfg. }
    rewrite (bind_ok _ _ _ _ _ Hload).
    destruct config as [|item rest].
    + rewrite bind_log. eexists. reflexivity.
    + destruct (dispatch_returns (c :: url) (item :: rest)
                  (valid_config_complete _ _ Hloaded) 0%nat w3)
        as (count & w4 & Hrun & _).
      rewrite (bind_ok _ _ _ _ _ Hrun), bind_log.
      destruct (count <? length (item :: rest))%nat.
      * rewrite !bind_log. eexists. reflexivity.
      * rewrite bind_ret, bind_log. eexists. reflexivity.
  - destruct (load_config_raises
                (emit (EvLog INFO (u "🎯 本次运行统一使用图片URL: %s")) w2))
      as (e & Hraise).
    { cbn [config_file emit]. by rewrite Hcfg. }
    rewrite (bind_raised _ _ _ _ _ Hraise). eexists _, _. reflexivity.
Qed.

Lemma main_handler_returns w :
  exists code w',
    try_except (change_working_dir SCRIPT_DIR (run SCRIPT_DIR))
      (fun e => bind (log ERROR (u "❌ 主程序异常: %s")) (fun _ => ret 1%Z)) w =
    (Ok code, w').
Proof.
  unfold try_except.
  destruct (change_working_dir SCRIPT_DIR (run SCRIPT_DIR) w) as [[code|e] w'].
  - by eexists _, _.
  - rewrite bind_log. by eexists _, _.
Qed.

Lemma main_code w :
  fst (main SCRIPT_DIR w) =
  match expected_outcome (queue_head (fs w) (IMAGE_URL_FILE SCRIPT_DIR))
          (valid_config (config_file w)) with
  | Some code => code
  | None => 1%Z
  end.
Proof.
  pose proof (run_eval (emit (EvChdir SCRIPT_DIR) (set_cwd SCRIPT_DIR w)))
    as Hrun.
  cbn [fs config_file emit set_cwd] in Hrun.
  unfold main, try_except, change_working_dir.
  destruct (expected_outcome _ _) as [code|].
  - destruct Hrun as (w' & ->). reflexivity.
  - destruct Hrun as (e & w' & ->). reflexivity.
Qed.

Lemma run_raises w :
  (exists e w', change_working_dir SCRIPT_DIR (run SCRIPT_DIR) w = (Raise e, w'))
  <->
  expected_outcome (queue_head (fs w) (IMAGE_URL_FILE SCRIPT_DIR))
    (valid_config (config_file w)) = None.
Proof.
  pose proof (run_eval (emit (EvChdir SCRIPT_DIR) (set_cwd SCRIPT_DIR w)))
    as Hrun.
  cbn [fs config_file emit set_cwd] in Hrun.
  unfold change_working_dir.
  destruct (expected_outcome _ _) as [code|].
  - destruct Hrun as (w' & ->). split; [|done].
    intros (e & w'' & H). discriminate.
  - destruct Hrun as (e & w' & ->). split; [done|]. intros _.
    eexists _, _. reflexivity.
Qed.

(** C3.  [main] returns 0 or 1.  It returns 1 exactly when no identifier
    could be popped, when the validated destination list is empty, or
    when an exception escapes from the orchestration, which is the case
    exactly when an identifier was popped and [load_config] raises.  It
    returns 0 exactly when an identifier was popped and the validated
    list is not empty: the loop then runs to its end and the exit code
    does not depend on what the sends return, it is 0 also when every
    transport call fails. *)
Theorem main_exit_code w :
  let code := fst (main SCRIPT_DIR w) in
  let popped := queue_head (fs w) (IMAGE_URL_FILE SCRIPT_DIR) in
  let loaded := valid_config (config_file w) in
  (code = 0 \/ code = 1)%Z /\
  (code = 1%Z <-> popped = None \/ loaded = Some [] \/ loaded = None) /\
  (code = 0%Z <->
   popped <> None /\ exists item rest, loaded = Some (item :: rest)) /\
  ((exists e w',
      change_working_dir SCRIPT_DIR (run SCRIPT_DIR) w = (Raise e, w')) <->
   popped <> None /\ loaded = None) /\
  (forall item rest,
     popped <> None -> loaded = Some (item :: rest) ->
     (forall k, failed (net w k) = true) -> code = 0%Z).
Proof.
  intros code popped loaded. subst code.
  rewrite main_code, run_raises. fold popped loaded.
  destruct popped as [url|], loaded as [[|item rest]|];
    cbn [expected_outcome]; repeat split;
    try (intros; (discriminate || tauto || done)).
  all: try (by left); try (by right; left); try (by right; right);
       try (by right).
  all: try (intros [H|[H|H]]; discriminate).
  all: try (intros [H _]; done).
  all: try (intros (_ & item' & rest' & H); discriminate).
  all: try (by intros _; split; [|eexists _, _]).
  all: try (by intros [_ H]).
  by eexists _, _.
Qed.

End Main.

(** A whole run: the first line of the queue is popped and used for both
    destinations, the queue keeps the second line, and the exit code is 0
    although the second destination could not be reached. *)
Example one_run :
  let dir := u "/srv/push" in
  let w :=
    sample_world {[ IMAGE_URL_FILE dir := sample_queue ]}
      (Config.Entries
         [Config.Object (sample_destination good_webhook);
          Config.Object (sample_destination good_webhook)])
      (fun k => match k with 0%nat => accepts | _ => Chatbot.Raises end) in
  let request :=
    Chatbot.send_markdown DEFAULT_TITLE
      (u "Today: https://cdn.example.com/a.jpg") (Some []) false in
  let call := EvCall (Chatbot.Build good_webhook None) request in
  fst (main dir w) = 0%Z /\
  fs (snd (main dir w)) !! IMAGE_URL_FILE dir =
    Some (u "https://cdn.example.com/b.jpg
") /\
  cwd (snd (main dir w)) = cwd w /\
  List.filter (fun e => match e with EvCall _ _ => true | _ => false end)
    (trace (snd (main dir w))) = [call; call; call; call].
Proof. vm_compute. repeat split. Qed.

Lemma main_exit_code_witness :
  let dir := u "/srv/push" in
  let w :=
    sample_world {[ IMAGE_URL_FILE dir := sample_queue ]}
      (Config.Entries
         [Config.Object (sample_destination good_webhook); Config.NotADict])
      (always Chatbot.Raises) in
  queue_head (fs w) (IMAGE_URL_FILE dir) <> None /\
  valid_config (config_file w) = Some [sample_destination good_webhook] /\
  (forall k, failed (net w k) = true) /\
  fst (main dir w) = 0%Z.
Proof.
  intros dir w.
  assert (H1 : queue_head (fs w) (IMAGE_URL_FILE dir) <> None)
    by (vm_compute; discriminate).
  assert (H2 : valid_config (config_file w) =
               Some [sample_destination good_webhook])
    by (vm_compute; reflexivity).
  assert (H3 : forall k, failed (net w k) = true) by (intros k; reflexivity).
  split; [exact H1|]. split; [exact H2|]. split; [exact H3|].
  destruct (main_exit_code dir w) as (_ & _ & _ & _ & Hfail).
  exact (Hfail _ _ H1 H2 H3).
Defined.

End Orchestrator.

(* ===================================================================== *)
(** * Further properties of the queue *)
(* ===================================================================== *)

Section QueueMore.

Import DingTalkBotEnhanced.

Implicit Types (w : world) (content : str) (ls : list str).

(** What [pop_first_url] does not touch. *)
Lemma pop_first_url_frame file_path w :
  let w' := snd (pop_first_url file_path w) in
  config_file w' = config_file w /\ cwd w' = cwd w /\ net w' = net w /\
  rng w' = rng w /\ calls w' = calls w /\ draws w' = draws w.
Proof.
  destruct (fs w !! file_path) as [content|] eqn:Hfile.
  - rewrite (pop_first_url_found _ _ _ Hfile).
    by destruct (queue_lines content).
  - unfold pop_first_url, bind. by rewrite (path_exists_absent _ _ Hfile).
Qed.

(** X1.  A pop changes no file but the queue file and its ".tmp" sibling,
    and after a pop that returned a line there is no ".tmp" sibling, also
    when one was there before. *)
Theorem pop_first_url_other_files file_path w :
  let w' := snd (pop_first_url file_path w) in
  (forall path,
     path <> file_path -> path <> file_path ++ u ".tmp" ->
     fs w' !! path = fs w !! path) /\
  (forall url,
     fst (pop_first_url file_path w) = Ok (Some url) ->
     fs w' !! (file_path ++ u ".tmp") = None).
Proof.
  destruct (fs w !! file_path) as [content|] eqn:Hfile.
  - rewrite (pop_first_url_found _ _ _ Hfile).
    destruct (queue_lines content) as [|current_url remaining];
      cbn [fst snd fs emit set_fs].
    + split; [done|]. intros url H. discriminate.
    + split.
      * intros path H1 H2.
        rewrite lookup_insert_ne by done. by rewrite lookup_delete_ne.
      * intros url _. rewrite lookup_insert_ne by apply not_eq_sym, temp_path_fresh.
        apply lookup_delete_eq.
  - unfold pop_first_url, bind. rewrite (path_exists_absent _ _ Hfile).
    cbn [negb fst snd log ret fs emit]. split; [done|]. intros url H. discriminate.
Qed.

Lemma pop_first_url_other_files_witness :
  let file_path := u "/srv/config/image.txt" in
  let w :=
    sample_world
      {[ file_path := sample_queue;
         file_path ++ u ".tmp" := u "stale";
         u "/srv/config/config.json" := u "[]" ]}
      Config.Missing (always accepts) in
  let w' := snd (pop_first_url file_path w) in
  fst (pop_first_url file_path w) = Ok (Some (u "https://cdn.example.com/a.jpg")) /\
  fs w !! (file_path ++ u ".tmp") = Some (u "stale") /\
  fs w' !! (file_path ++ u ".tmp") = None /\
  fs w' !! u "/srv/config/config.json" = Some (u "[]").
Proof.
  intros file_path w w'.
  assert (H : fst (pop_first_url file_path w) =
              Ok (Some (u "https://cdn.example.com/a.jpg")))
    by (vm_compute; reflexivity).
  split; [exact H|]. split; [vm_compute; reflexivity|].
  destruct (pop_first_url_other_files file_path w) as [Hother Htmp].
  split; [exact (Htmp _ H)|].
  subst w'. rewrite Hother; vm_compute; (reflexivity || discriminate).
Defined.

(** X2.  What a pop returns is a line as the queue keeps it: not empty,
    with nothing left to strip and without a line end inside. *)
Theorem pop_first_url_result_clean file_path w url :
  fst (pop_first_url file_path w) = Ok (Some url) ->
  url <> [] /\ strip url = url /\ (LF ∉ url) /\ (CR ∉ url).
Proof.
  destruct (fs w !! file_path) as [content|] eqn:Hfile.
  - rewrite (pop_first_url_found _ _ _ Hfile).
    destruct (queue_lines content) as [|current_url remaining] eqn:Hlines;
      cbn [fst]; [discriminate|].
    intros [= ->]. apply (queue_lines_clean content). rewrite Hlines. left.
  - unfold pop_first_url, bind. rewrite (path_exists_absent _ _ Hfile).
    cbn [negb fst log ret]. discriminate.
Qed.

Lemma pop_first_url_result_clean_witness :
  let file_path := u "/srv/config/image.txt" in
  let w :=
    sample_world {[ file_path := u " 	https://cdn.example.com/a.jpg  
" ]}
      Config.Missing (always accepts) in
  fst (pop_first_url file_path w) = Ok (Some (u "https://cdn.example.com/a.jpg")) /\
  strip (u "https://cdn.example.com/a.jpg") = u "https://cdn.example.com/a.jpg".
Proof.
  intros file_path w.
  assert (H : fst (pop_first_url file_path w) =
              Ok (Some (u "https://cdn.example.com/a.jpg")))
    by (vm_compute; reflexivity).
  split; [exact H|].
  exact (proj1 (proj2 (pop_first_url_result_clean file_path w _ H))).
Defined.

(** [n] pops, one after the other. *)
Lemma pop_times_spec n : forall file_path w content,
  fs w !! file_path = Some content ->
  fst (pop_times n file_path w) =
    map Some (take n (queue_lines content)) ++
    replicate (n - length (queue_lines content)) None /\
  fs (snd (pop_times n file_path w)) !! file_path =
    Some (match n, queue_lines content with
          | O, _ | _, [] => content
          | _, _ => queue_text (drop n (queue_lines content))
          end).
Proof.
  induction n as [|n IH]; intros file_path w content Hfile.
  - split; [reflexivity|exact Hfile].
  - cbn [pop_times]. rewrite (pop_first_url_found _ _ _ Hfile).
    pose proof (queue_lines_all_clean content) as Hclean.
    destruct (queue_lines content) as [|current_url remaining] eqn:Hlines.
    + destruct (IH file_path
                  (emit (EvLog WARNING (u "⚠️ URL文件为空")) w) content Hfile)
        as [Hres Hfs].
      destruct (pop_times n file_path _) as [later w''].
      cbn [fst snd] in *. rewrite Hlines in Hres, Hfs. rewrite Hres, Hfs.
      rewrite !take_nil. cbn [length map app]. rewrite Nat.sub_0_r.
      split; [reflexivity|]. by destruct n.
    + cbv beta iota zeta.
      match goal with |- context [pop_times n file_path ?v] =>
        destruct (IH file_path v (queue_text remaining)) as [Hres Hfs];
          [cbn [fs emit set_fs]; apply lookup_insert_eq|]
      end.
      rewrite queue_lines_text in Hres, Hfs by (by inversion Hclean).
      destruct (pop_times n file_path _) as [later w''].
      cbn [fst snd] in *. rewrite Hres, Hfs.
      split; [reflexivity|]. by destruct n, remaining.
Qed.

(** X3.  The queue is first in, first out: [n] pops in a row return the
    first [n] lines of the file in their order, and [None] from then on;
    once a line has been popped the file holds the lines that were not
    popped, so that nothing is returned twice and nothing is lost. *)
Theorem pop_first_url_fifo n file_path w content :
  fs w !! file_path = Some content ->
  fst (pop_times n file_path w) =
    map Some (take n (queue_lines content)) ++
    replicate (n - length (queue_lines content)) None /\
  ((0 < n)%nat -> queue_lines content <> [] ->
   fs (snd (pop_times n file_path w)) !! file_path =
     Some (queue_text (drop n (queue_lines content)))).
Proof.
  intros Hfile. destruct (pop_times_spec n file_path w content Hfile)
    as [Hres Hfs].
  split; [exact Hres|]. intros Hn Hlines. rewrite Hfs.
  destruct n as [|n]; [lia|]. by destruct (queue_lines content).
Qed.

Lemma pop_first_url_fifo_witness :
  let file_path := u "/srv/config/image.txt" in
  let w := sample_world {[ file_path := sample_queue ]} Config.Missing
             (always accepts) in
  fs w !! file_path = Some sample_queue /\
  fst (pop_times 3 file_path w) =
    [Some (u "https://cdn.example.com/a.jpg");
     Some (u "https://cdn.example.com/b.jpg"); None] /\
  fs (snd (pop_times 3 file_path w)) !! file_path = Some [].
Proof.
  intros file_path w.
  assert (H : fs w !! file_path = Some sample_queue)
    by apply lookup_singleton_eq.
  split; [exact H|].
  destruct (pop_first_url_fifo 3 file_path w sample_queue H) as [Hres Hfs].
  split.
  - rewrite Hres. vm_compute. reflexivity.
  - rewrite Hfs; [vm_compute; reflexivity|lia|vm_compute; discriminate].
Defined.

End QueueMore.

(* ===================================================================== *)
(** * Further properties of the validator and the composer *)
(* ===================================================================== *)

Section ValidatorMore.

Import DingTalkBotEnhanced.

Implicit Types (w : world) (url s d : str) (c : char).

Lemma startswith_app_l p s t :
  startswith p s = true -> startswith p (s ++ t) = true.
Proof.
  intros [r ->]%startswith_inv. rewrite <- app_assoc. apply startswith_app.
Qed.

Lemma startswith_snoc d s c :
  c ∉ d -> startswith d (s ++ [c]) = startswith d s.
Proof.
  revert s. induction d as [|x d IH]; intros s Hc; [by destruct s|].
  apply not_elem_of_cons in Hc as [Hcx Hc].
  destruct s as [|y s]; simpl.
  - apply N.eqb_neq in Hcx. rewrite N.eqb_sym in Hcx. by rewrite Hcx.
  - by rewrite IH.
Qed.

Lemma contains_snoc d s c :
  d <> [] -> c ∉ d -> contains d (s ++ [c]) = contains d s.
Proof.
  intros Hd Hc. induction s as [|y s IH].
  - destruct d as [|x d]; [done|]. simpl.
    apply not_elem_of_cons in Hc as [Hcx _].
    apply N.eqb_neq in Hcx. rewrite N.eqb_sym in Hcx. by rewrite Hcx.
  - cbn [app contains]. rewrite IH.
    change (y :: s ++ [c]) with ((y :: s) ++ [c]).
    by rewrite startswith_snoc.
Qed.

Lemma existsb_pointwise {A} (f g : A -> bool) (l : list A) :
  Forall (fun x => f x = g x) l -> existsb f l = existsb g l.
Proof. induction 1 as [|x l Hx _ IH]; simpl; congruence. Qed.

Lemma blocked_domains_plain :
  Forall (fun d => d <> [] /\ LF ∉ d) BLOCKED_DOMAINS.
Proof. apply (bool_decide_unpack _). vm_compute. exact I. Qed.

Lemma illegal_characters_plain :
  Forall (fun d => d <> [] /\ LF ∉ d) ILLEGAL_CHARACTERS.
Proof. apply (bool_decide_unpack _). vm_compute. exact I. Qed.

Lemma is_blocked_newline url : is_blocked (url ++ [LF]) = is_blocked url.
Proof.
  unfold is_blocked. apply existsb_pointwise.
  eapply Forall_impl; [apply blocked_domains_plain|].
  intros d [Hd Hlf]. cbv beta. rewrite lower_app.
  change (lower [LF]) with [LF]. by apply contains_snoc.
Qed.

Lemma has_illegal_character_newline url :
  has_illegal_character (url ++ [LF]) = has_illegal_character url.
Proof.
  unfold has_illegal_character. apply existsb_pointwise.
  eapply Forall_impl; [apply illegal_characters_plain|].
  intros d [Hd Hlf]. cbv beta. by apply contains_snoc.
Qed.

Lemma match_before_end_newline pattern url :
  (forall body, url <> body ++ [LF]) ->
  match_before_end pattern url = true ->
  match_before_end pattern (url ++ [LF]) = true.
Proof.
  intros Hlast. unfold match_before_end. rewrite rev_unit.
  intros H. rewrite N.eqb_refl. cbn [andb].
  apply orb_prop in H as [H|H]; [by rewrite H, orb_true_r|].
  destruct (rev url) as [|c r] eqn:Hrev; [done|].
  apply andb_prop in H as [Hc _]. apply N.eqb_eq in Hc as ->.
  exfalso. apply (Hlast (rev r)).
  rewrite <- (rev_involutive url), Hrev. reflexivity.
Qed.

Lemma search_image_suffix_newline url :
  (forall body, url <> body ++ [LF]) ->
  search_image_suffix url = true ->
  search_image_suffix (url ++ [LF]) = true.
Proof.
  intros Hlast. unfold search_image_suffix.
  rewrite !existsb_exists. intros (ext & Hext & Hmatch).
  exists ext. split; [exact Hext|]. by apply match_before_end_newline.
Qed.

(** X4.  The format check looks at the end of the URL, "$" also matches
    before a newline that ends the string and a newline is not one of the
    illegal characters: whenever the validator accepts a URL that does
    not end with a newline, it accepts the URL followed by one newline as
    well. *)
Theorem validate_image_url_trailing_newline url w reason w1 :
  validate_image_url url w = (Ok (true, reason), w1) ->
  (forall body, url <> body ++ [LF]) ->
  forall v, fst (validate_image_url (url ++ [LF]) v) = Ok (true, MSG_PASSED).
Proof.
  intros (Hhttps & Hblocked & Hformat & Hchars)%accepted_tests Hlast v.
  rewrite validate_image_url_eval. cbn [fst]. unfold validation.
  unfold is_https in *. rewrite (startswith_app_l _ _ _ Hhttps).
  rewrite is_blocked_newline, Hblocked.
  rewrite (search_image_suffix_newline _ Hlast Hformat).
  rewrite has_illegal_character_newline, Hchars. reflexivity.
Qed.

Lemma validate_image_url_trailing_newline_witness :
  let w := sample_world ∅ Config.Missing (always accepts) in
  validate_image_url sample_url w = (Ok (true, MSG_PASSED), w) /\
  (forall body, sample_url <> body ++ [LF]) /\
  fst (validate_image_url (u "https://cdn.example.com/a.jpg
") w) = Ok (true, MSG_PASSED).
Proof.
  intros w.
  assert (H : validate_image_url sample_url w = (Ok (true, MSG_PASSED), w))
    by (vm_compute; reflexivity).
  assert (Hlast : forall body, sample_url <> body ++ [LF]).
  { intros body Hbody. apply (f_equal (fun s => head (rev s))) in Hbody.
    rewrite rev_unit in Hbody. vm_compute in Hbody. discriminate. }
  split; [exact H|]. split; [exact Hlast|].
  pose proof (validate_image_url_trailing_newline sample_url w _ _ H Hlast w)
    as Hnl.
  vm_compute in Hnl |- *. exact Hnl.
Defined.

(** ** The composer *)

Lemma replace_from_has_new old new s :
  old <> [] -> contains old s = true ->
  contains new (replace_from old new 0 s) = true.
Proof.
  intros Hold. induction s as [|c s IH]; intros H.
  - simpl in H. rewrite orb_false_r in H.
    by apply startswith_nil_r in H.
  - rewrite replace_from_cons.
    destruct (startswith old (c :: s)) eqn:Hst.
    + apply contains_startswith, startswith_app.
    + cbn [contains] in H. rewrite Hst in H. cbn [orb] in H.
      cbn [contains]. rewrite (IH H). apply orb_true_r.
Qed.

Lemma replace_has_new old new s :
  contains old s = true -> contains new (replace old new s) = true.
Proof.
  destruct old as [|a old'].
  - intros _. unfold replace. apply contains_startswith, startswith_app.
  - by apply replace_from_has_new.
Qed.

(** X5.  Whatever the template and the placeholder, the composed text
    contains the image URL: in place of the placeholder when the template
    has one, and in the appended image block when it has none. *)
Theorem compose_has_identifier content img_url image_placeholder w :
  exists text,
    fst (compose content img_url image_placeholder w) = Ok text /\
    contains img_url text = true /\
    (contains image_placeholder content = false ->
     startswith content text = true).
Proof.
  destruct (contains image_placeholder content) eqn:Hph.
  - eexists. split; [by apply compose_present|].
    split; [by apply replace_has_new|done].
  - eexists. split; [by apply compose_absent|]. split.
    + unfold image_block. rewrite app_assoc. apply contains_app.
    + intros _. apply startswith_app.
Qed.

Lemma compose_has_identifier_witness :
  let w := sample_world ∅ Config.Missing (always accepts) in
  contains DEFAULT_IMAGE_PLACEHOLDER (u "Today") = false /\
  exists text,
    fst (compose (u "Today") sample_url DEFAULT_IMAGE_PLACEHOLDER w) = Ok text /\
    contains sample_url text = true /\
    startswith (u "Today") text = true.
Proof.
  intros w.
  assert (H : contains DEFAULT_IMAGE_PLACEHOLDER (u "Today") = false)
    by (vm_compute; reflexivity).
  split; [exact H|].
  destruct (compose_has_identifier (u "Today") sample_url
              DEFAULT_IMAGE_PLACEHOLDER w) as (text & H1 & H2 & H3).
  exists text. split; [exact H1|]. split; [exact H2|exact (H3 H)].
Defined.

End ValidatorMore.

(* ===================================================================== *)
(** * Further properties of the retry wrapper *)
(* ===================================================================== *)

Section RetryMore.

Import DingTalkBotEnhanced.

Implicit Types (w : world) (self : t) (req : Chatbot.request).

Lemma transport_calls_app tr1 tr2 :
  transport_calls (tr1 ++ tr2) = transport_calls tr1 ++ transport_calls tr2.
Proof. unfold transport_calls. apply List.filter_app. Qed.

Lemma transport_calls_effects tr :
  transport_calls (effects tr) = transport_calls tr.
Proof.
  induction tr as [|e tr IH]; [reflexivity|].
  destruct e; cbn; rewrite ?IH; try reflexivity;
    unfold transport_calls, effects in *; cbn; by rewrite IH.
Qed.

Lemma slept_effects tr : slept (effects tr) = slept tr.
Proof.
  induction tr as [|e tr IH]; [reflexivity|].
  destruct e; unfold effects in *; cbn [List.filter is_log negb slept];
    by rewrite ?IH.
Qed.

Lemma transport_calls_backoff bot req rng0 n : forall draw retry,
  transport_calls (backoff bot req rng0 draw retry n ++ [EvCall bot req]) =
  replicate (S n) (EvCall bot req).
Proof.
  induction n as [|n IH]; intros draw retry; [reflexivity|].
  cbn [backoff app]. unfold transport_calls in *.
  cbn [List.filter is_call]. by rewrite IH.
Qed.

(** The run of the wrapper when the first [N] attempts fail and attempt
    [N] either succeeds or is the last one. *)
Lemma send_with_retry_run self req w N :
  (N < MAX_RETRIES)%nat ->
  (forall k, (k < N)%nat -> failed (net w (calls w + k)) = true) ->
  failed (net w (calls w + N)) = false \/ N = (MAX_RETRIES - 1)%nat ->
  exists w' evs,
    _send_with_retry self req w =
      (Ok (negb (failed (net w (calls w + N)))), w') /\
    calls w' = (calls w + N + 1)%nat /\ draws w' = (draws w + N)%nat /\
    trace w' = trace w ++ evs /\
    effects evs =
      backoff (bot self) req (rng w) (draws w) 0 N ++ [EvCall (bot self) req].
Proof.
  intros HN Hfail Hlast. unfold _send_with_retry. rewrite (retries_split N HN).
  destruct (retry_loop_failures self req N 0
              (N :: seq (S N) (MAX_RETRIES - S N)) w)
    as (w1 & Hloop & Hc & Hd & Hn & _ & _ & _ & _ & evs & Htr & Hev);
    [lia|done|].
  rewrite Hloop, retry_loop_cons, Hn, Hc.
  destruct (failed (net w (calls w + N))) eqn:HfN.
  - destruct Hlast as [?| ->]; [done|].
    change (seq (S (MAX_RETRIES - 1)) (MAX_RETRIES - S (MAX_RETRIES - 1)))
      with (@nil nat).
    destruct (after_failure_last (bot self) req w1)
      as (Hc' & Hd' & _ & _ & _ & _ & _ & evs' & Htr' & Hev').
    eexists _, (evs ++ evs'). split; [reflexivity|].
    split; [lia|]. split; [lia|]. split.
    + by rewrite Htr', Htr, app_assoc.
    + by rewrite effects_app, Hev, Hev'.
  - destruct (after_success_effects (bot self) req w1)
      as (Hc' & Hd' & _ & _ & _ & _ & _ & evs' & Htr' & Hev').
    eexists _, (evs ++ evs'). split; [reflexivity|].
    split; [lia|]. split; [lia|]. split.
    + by rewrite Htr', Htr, app_assoc.
    + by rewrite effects_app, Hev, Hev'.
Qed.

(** Every run of the wrapper has this shape, for some [N]. *)
Lemma send_with_retry_shape self req w :
  exists N sent w' evs,
    _send_with_retry self req w = (Ok sent, w') /\
    (N < MAX_RETRIES)%nat /\
    (sent = false -> N = (MAX_RETRIES - 1)%nat) /\
    calls w' = (calls w + N + 1)%nat /\ draws w' = (draws w + N)%nat /\
    trace w' = trace w ++ evs /\
    effects evs =
      backoff (bot self) req (rng w) (draws w) 0 N ++ [EvCall (bot self) req].
Proof.
  assert (Hrun := send_with_retry_run self req w).
  change MAX_RETRIES with 3%nat in *. change (3 - 1)%nat with 2%nat in *.
  destruct (failed (net w (calls w + 0))) eqn:H0;
    [destruct (failed (net w (calls w + 1))) eqn:H1|].
  - destruct (Hrun 2%nat) as (w' & evs & Hr & Hc & Hd & Htr & Hev);
      [lia| |by right|].
    { intros k Hk. destruct k as [|[|k]]; [exact H0|exact H1|lia]. }
    exists 2%nat, (negb (failed (net w (calls w + 2)))), w', evs.
    repeat split; try done. lia.
  - destruct (Hrun 1%nat) as (w' & evs & Hr & Hc & Hd & Htr & Hev);
      [lia| |by left|].
    { intros k Hk. destruct k as [|k]; [exact H0|lia]. }
    rewrite H1 in Hr. exists 1%nat, true, w', evs.
    repeat split; try done. lia.
  - destruct (Hrun 0%nat) as (w' & evs & Hr & Hc & Hd & Htr & Hev);
      [lia| |by left|].
    { intros k Hk. lia. }
    rewrite H0 in Hr. exists 0%nat, true, w', evs.
    repeat split; try done. lia.
Qed.

(** X6.  Between one and three transport calls are made by a send, all
    of them with the bot and the request the wrapper was given; one
    random number is drawn for each call but the last, and the files, the
    configuration and the working directory are as before. *)
Theorem send_with_retry_same_request self req w :
  let w' := snd (_send_with_retry self req w) in
  transport_calls (added w w') =
    replicate (calls w' - calls w) (EvCall (bot self) req) /\
  (1 <= calls w' - calls w <= 3)%nat /\
  (draws w' - draws w = calls w' - calls w - 1)%nat /\
  fs w' = fs w /\ config_file w' = config_file w /\ cwd w' = cwd w.
Proof.
  destruct (send_with_retry_shape self req w)
    as (N & sent & w' & evs & Hrun & HN & _ & Hc & Hd & Htr & Hev).
  destruct (send_with_retry_returns self req w)
    as (sent' & w'' & Hrun' & (Hfs & Hcfg & Hcwd & _) & _).
  rewrite Hrun in Hrun'. injection Hrun' as <- <-.
  rewrite Hrun. cbn [snd]. change MAX_RETRIES with 3%nat in HN.
  rewrite (added_app _ _ _ Htr), <- transport_calls_effects, Hev.
  rewrite transport_calls_backoff.
  replace (calls w' - calls w)%nat with (S N) by lia.
  repeat split; try done; lia.
Qed.

(** X7.  With the jitter drawn from [0, 1), the sleeps of one send add
    up to at most 5 seconds: at most 2 after the first attempt, at most 3
    after the second, none after the third. *)
Theorem send_with_retry_total_sleep self req w :
  (forall k, (0 <= rng w k)%Q /\ (rng w k < 1)%Q) ->
  let w' := snd (_send_with_retry self req w) in
  (0 <= slept (added w w'))%Q /\ (slept (added w w') <= 5)%Q.
Proof.
  intros Hrng.
  destruct (send_with_retry_shape self req w)
    as (N & sent & w' & evs & Hrun & HN & _ & _ & _ & Htr & Hev).
  rewrite Hrun. cbn [snd].
  rewrite (added_app _ _ _ Htr), <- slept_effects, Hev.
  change MAX_RETRIES with 3%nat in HN.
  destruct (Hrng (draws w)) as [Hr0 Hr1].
  destruct (Hrng (S (draws w))) as [Hr0' Hr1'].
  destruct (uniform_value_unit (rng w (draws w))) as [Hj0 Hj1]; [lra..|].
  destruct (uniform_value_unit (rng w (S (draws w)))) as [Hj0' Hj1'];
    [lra..|].
  destruct (retry_delay_between 0 (uniform_value 0 1 (rng w (draws w))))
    as [Hd0 Hd0']; [lia|exact Hj0|exact Hj1|].
  destruct (retry_delay_between 1 (uniform_value 0 1 (rng w (S (draws w)))))
    as [Hd1 Hd1']; [lia|exact Hj0'|exact Hj1'|].
  change (inject_Z (2 ^ Z.of_nat 0)) with 1%Q in Hd0, Hd0'.
  change (inject_Z (2 ^ Z.of_nat 1)) with 2%Q in Hd1, Hd1'.
  destruct N as [|[|[|N]]]; [| | |lia]; cbn [backoff app slept]; split; lra.
Qed.

Lemma send_with_retry_total_sleep_witness :
  let req := Chatbot.send_text (u "hello") None false in
  let w := sample_world ∅ Config.Missing (always rejects) in
  (forall k, (0 <= rng w k)%Q /\ (rng w k < 1)%Q) /\
  (slept (added w (snd (_send_with_retry sample_bot req w))) <= 5)%Q.
Proof.
  intros req w.
  assert (H : forall k, (0 <= rng w k)%Q /\ (rng w k < 1)%Q).
  { intros k. split; [vm_compute; discriminate|reflexivity]. }
  split; [exact H|].
  exact (proj2 (send_with_retry_total_sleep sample_bot req w H)).
Defined.


(** X16.  [send_text] returns a boolean, it does not raise.  It makes
    between one and three transport calls, all with the same message and
    with the mention arguments it was given.  The message ends with the
    caller's text: it is that text with "@所有人 " in front when
    [is_at_all] is set, and the text itself when nobody is mentioned. *)
Theorem send_text_message self msg at_mobiles is_at_all w :
  let w' := snd (send_text self msg at_mobiles is_at_all w) in
  exists final_msg sent,
    fst (send_text self msg at_mobiles is_at_all w) = Ok sent /\
    transport_calls (added w w') =
      replicate (calls w' - calls w)
        (EvCall (bot self) (Chatbot.send_text final_msg at_mobiles is_at_all)) /\
    (1 <= calls w' - calls w <= 3)%nat /\
    endswith msg final_msg = true /\
    (is_at_all = true -> final_msg = u "@所有人 " ++ msg) /\
    (is_at_all = false -> truthy at_mobiles = false -> final_msg = msg).
Proof.
  unfold send_text. cbv zeta.
  set (final_msg :=
         if is_at_all || truthy at_mobiles
         then (if is_at_all then u "@所有人 "
               else join (u " ")
                      (map (fun m => u "@" ++ m) (default [] at_mobiles)) ++
                    u " ") ++ msg
         else msg).
  destruct (send_with_retry_shape self
              (Chatbot.send_text final_msg at_mobiles is_at_all) w)
    as (N & sent & w' & evs & Hrun & HN & _ & Hc & _ & Htr & Hev).
  rewrite Hrun. cbn [fst snd]. change MAX_RETRIES with 3%nat in HN.
  exists final_msg, sent. split; [reflexivity|].
  rewrite (added_app _ _ _ Htr), <- transport_calls_effects, Hev.
  rewrite transport_calls_backoff.
  replace (calls w' - calls w)%nat with (S N) by lia.
  split; [reflexivity|]. split; [lia|]. split; [|split].
  - subst final_msg. unfold endswith.
    destruct (is_at_all || truthy at_mobiles).
    + rewrite rev_app_distr. apply startswith_app.
    + rewrite <- (app_nil_r (rev msg)) at 2. apply startswith_app.
  - intros Hall. subst final_msg. rewrite Hall. reflexivity.
  - intros Hall Hmobiles. subst final_msg. rewrite Hall, Hmobiles.
    reflexivity.
Qed.

Lemma send_text_message_witness :
  let w := sample_world ∅ Config.Missing flaky in
  exists final_msg,
    final_msg = u "@所有人 ping" /\
    transport_calls
      (added w (snd (send_text sample_bot (u "ping") None true w))) =
    replicate 3
      (EvCall (bot sample_bot) (Chatbot.send_text final_msg None true)).
Proof.
  intros w.
  destruct (send_text_message sample_bot (u "ping") None true w)
    as (final_msg & sent & _ & Hcalls & _ & _ & Hall & _).
  exists final_msg. split.
  - rewrite (Hall eq_refl). vm_compute. reflexivity.
  - rewrite Hcalls. f_equal.
Defined.

End RetryMore.

(* ===================================================================== *)
(** * Further properties of the fan-out *)
(* ===================================================================== *)

Section DispatchMore.

Import DingTalkBotEnhanced.

Implicit Types (w : world) (config : list Config.item).

Lemma transport_calls_quiet evs : effects evs = [] -> transport_calls evs = [].
Proof. intros H. by rewrite <- transport_calls_effects, H. Qed.

(** One send of a Markdown message: what it adds to the trace. *)
Lemma send_markdown_with_image_shape self title content img_url
    image_placeholder at_mobiles is_at_all w :
  exists sent w' evs k,
    send_markdown_with_image self title content img_url image_placeholder
      at_mobiles is_at_all w = (Ok sent, w') /\
    trace w' = trace w ++ evs /\
    transport_calls evs =
      replicate k
        (EvCall (bot self)
           (Chatbot.send_markdown title
              (composed content img_url image_placeholder)
              (if is_at_all then None else at_mobiles) is_at_all)) /\
    calls w' = (calls w + k)%nat /\ (k <= 3)%nat /\
    stable w w' /\
    (fst (validation img_url) = true ->
     failed (net w (calls w)) = false -> sent = true /\ k = 1%nat) /\
    (sent = true -> (1 <= k)%nat).
Proof.
  rewrite send_markdown_with_image_eval.
  destruct (trace_after_validation img_url w) as (pre & Hpre & Hquiet).
  pose proof (calls_after_validation img_url w) as Hcalls.
  pose proof (stable_after_validation img_url w) as Hstable.
  destruct (fst (validation img_url)).
  - set (req := Chatbot.send_markdown title
                  (composed content img_url image_placeholder)
                  (if is_at_all then None else at_mobiles) is_at_all).
    set (v := emit (EvLog DEBUG (compose_log content image_placeholder))
                (emit (EvLog INFO (snd (validation img_url)))
                   (after_validation img_url w))).
    assert (Hv : calls v = calls w) by exact Hcalls.
    assert (Hnet : net v = net w) by (by destruct Hstable as (_ & _ & _ & ? & _)).
    assert (Htrv : trace v =
                   trace w ++ pre ++
                     [EvLog INFO (snd (validation img_url));
                      EvLog DEBUG (compose_log content image_placeholder)]).
    { subst v. cbn [trace emit]. rewrite Hpre, <- !app_assoc. reflexivity. }
    destruct (send_with_retry_shape self req v)
      as (N & sent & w' & evs & Hrun & HN & _ & Hc & _ & Htr & Hev).
    destruct (send_with_retry_returns self req v)
      as (sent' & w'' & Hrun' & Hs & _).
    rewrite Hrun in Hrun'. injection Hrun' as <- <-.
    change MAX_RETRIES with 3%nat in HN.
    exists sent, w',
      (pre ++
       [EvLog INFO (snd (validation img_url));
        EvLog DEBUG (compose_log content image_placeholder)] ++ evs), (S N).
    split; [exact Hrun|]. split.
    { rewrite Htr, Htrv, <- !app_assoc. reflexivity. }
    split.
    { rewrite !transport_calls_app, (transport_calls_quiet _ Hquiet).
      rewrite <- (transport_calls_effects evs), Hev.
      rewrite transport_calls_backoff. reflexivity. }
    split; [lia|]. split; [lia|]. split.
    { eapply stable_trans; [exact Hstable|].
      eapply stable_trans; [|exact Hs].
      eapply stable_trans; apply stable_emit. }
    split; [|lia].
    intros _ Hok.
    destruct (send_with_retry_run self req v 0) as (w2 & evs2 & Hrun2 & Hc2 & _).
    { change MAX_RETRIES with 3%nat. lia. }
    { intros k Hk. lia. }
    { left. by rewrite Nat.add_0_r, Hnet, Hv. }
    rewrite Nat.add_0_r, Hnet, Hv, Hok, Hrun in Hrun2.
    injection Hrun2 as -> <-. split; [reflexivity|lia].
  - eexists false, _, (pre ++ [EvLog ERROR (snd (validation img_url))]), 0%nat.
    split; [reflexivity|]. split.
    { cbn [trace emit]. by rewrite Hpre, app_assoc. }
    split.
    { rewrite transport_calls_app, (transport_calls_quiet _ Hquiet).
      reflexivity. }
    split; [cbn [calls emit]; lia|]. split; [lia|]. split.
    { eapply stable_trans; [exact Hstable|apply stable_emit]. }
    split; [done|done].
Qed.

Lemma reachable_cons_destination webhook secret template title at_mobiles
    is_at_all config :
  reachable
    (destination webhook secret template title at_mobiles is_at_all :: config) =
  if constructible webhook
  then destination webhook secret template title at_mobiles is_at_all
         :: reachable config
  else reachable config.
Proof. reflexivity. Qed.

(** The whole loop: what it adds to the trace. *)
Lemma dispatch_shape img_url config :
  Forall complete config ->
  forall success_count w,
    exists count w' evs,
      dispatch img_url config success_count w = (Ok count, w') /\
      trace w' = trace w ++ evs /\
      Forall (fun e => exists item,
                item ∈ reachable config /\ call_for img_url item = Some e)
        (transport_calls evs) /\
      calls w' = (calls w + length (transport_calls evs))%nat /\
      (length (transport_calls evs) <= 3 * length (reachable config))%nat /\
      (success_count <= count <= success_count + length (reachable config))%nat /\
      (count - success_count <= length (transport_calls evs))%nat.
Proof.
  induction 1 as [|item rest Hitem _ IH]; intros success_count w.
  - exists success_count, w, []. split; [reflexivity|].
    rewrite app_nil_r. repeat split; try done; simpl; lia.
  - destruct Hitem as [webhook secret template title at_mobiles is_at_all].
    rewrite reachable_cons_destination.
    destruct (constructible webhook) eqn:Hc.
    + destruct (send_markdown_with_image_shape
                  {| bot := Chatbot.Build webhook secret |} title template
                  img_url DEFAULT_IMAGE_PLACEHOLDER at_mobiles is_at_all
                  (constructed w))
        as (sent & w1 & evs1 & k & Hsend & Htr1 & Hcalls1 & Hc1 & Hk & _ & _ & Hsent).
      rewrite (dispatch_sent _ _ _ _ _ _ _ _ _ _ _ _ Hc Hsend).
      destruct (IH (if sent then S success_count else success_count) (paced w1))
        as (count & w' & evs' & Hrun & Htr' & Hall & Hc' & Hlen & Hcount & Hdiff).
      exists count, w',
        ([EvLog INFO MSG_PROCESSING;
          EvLog INFO (u "✅ 钉钉机器人初始化成功 | 加签: %s")] ++ evs1 ++
         [EvLog DEBUG (u "⏳ 等待 %.2f 秒后处理下一个配置项");
          EvSleep (pace_delay w1)] ++ evs').
      split; [exact Hrun|]. split.
      { rewrite Htr'. unfold paced. cbn [trace emit set_draws].
        rewrite Htr1. unfold constructed. cbn [trace emit].
        rewrite <- !app_assoc. reflexivity. }
      assert (Hcalls :
        transport_calls
          ([EvLog INFO MSG_PROCESSING;
            EvLog INFO (u "✅ 钉钉机器人初始化成功 | 加签: %s")] ++ evs1 ++
           [EvLog DEBUG (u "⏳ 等待 %.2f 秒后处理下一个配置项");
            EvSleep (pace_delay w1)] ++ evs') =
        transport_calls evs1 ++ transport_calls evs').
      { rewrite !transport_calls_app. reflexivity. }
      rewrite Hcalls, Hcalls1, length_app, length_replicate.
      cbn [length]. split; [|split; [|split; [|split]]].
      * apply Forall_app. split.
        -- apply Forall_forall. intros e [-> _]%elem_of_replicate.
           eexists. split; [left|reflexivity].
        -- eapply Forall_impl; [exact Hall|].
           intros e (item & Hin & Hcall). exists item. split; [by right|done].
      * rewrite Hc'. unfold paced. cbn [calls emit set_draws].
        rewrite Hc1. unfold constructed. cbn [calls emit]. lia.
      * lia.
      * destruct sent; lia.
      * destruct sent; [specialize (Hsent eq_refl)|]; lia.
    + rewrite (dispatch_skipped _ _ _ _ _ _ _ _ _ _ Hc).
      destruct (IH success_count (skipped w))
        as (count & w' & evs' & Hrun & Htr' & Hall & Hc' & Hlen & Hcount & Hdiff).
      exists count, w',
        ([EvLog INFO MSG_PROCESSING;
          EvLog ERROR (u "❌ 处理第 %d 项时出错: %s | Webhook: %s")] ++ evs').
      split; [exact Hrun|]. split.
      { rewrite Htr'. unfold skipped. cbn [trace emit].
        rewrite <- !app_assoc. reflexivity. }
      rewrite transport_calls_app.
      change (transport_calls
                [EvLog INFO MSG_PROCESSING;
                 EvLog ERROR (u "❌ 处理第 %d 项时出错: %s | Webhook: %s")])
        with (@nil event).
      cbn [app]. repeat split; try done; lia.
Qed.



Lemma dispatch_accepted img_url config :
  fst (validation img_url) = true ->
  Forall complete config ->
  forall success_count w,
    (forall k, failed (net w k) = false) ->
    exists w' evs,
      dispatch img_url config success_count w =
        (Ok (success_count + length (reachable config))%nat, w') /\
      trace w' = trace w ++ evs /\
      transport_calls evs = omap (call_for img_url) (reachable config).
Proof.
  intros Hvalid. induction 1 as [|item rest Hitem _ IH];
    intros success_count w Hnet.
  - exists w, []. rewrite app_nil_r. cbn [reachable List.filter length].
    rewrite Nat.add_0_r. by repeat split.
  - destruct Hitem as [webhook secret template title at_mobiles is_at_all].
    rewrite reachable_cons_destination.
    destruct (constructible webhook) eqn:Hc.
    + destruct (send_markdown_with_image_shape
                  {| bot := Chatbot.Build webhook secret |} title template
                  img_url DEFAULT_IMAGE_PLACEHOLDER at_mobiles is_at_all
                  (constructed w))
        as (sent & w1 & evs1 & k & Hsend & Htr1 & Hcalls1 & _ & _ & Hs & Hok & _).
      destruct (Hok Hvalid (Hnet _)) as [-> ->].
      rewrite (dispatch_sent _ _ _ _ _ _ _ _ _ _ _ _ Hc Hsend).
      destruct (IH (S success_count) (paced w1)) as (w' & evs' & Hrun & Htr' & Hcalls').
      { intros j. destruct Hs as (_ & _ & _ & Hn & _).
        change (net (paced w1)) with (net w1). rewrite Hn. apply Hnet. }
      exists w',
        ([EvLog INFO MSG_PROCESSING;
          EvLog INFO (u "✅ 钉钉机器人初始化成功 | 加签: %s")] ++ evs1 ++
         [EvLog DEBUG (u "⏳ 等待 %.2f 秒后处理下一个配置项");
          EvSleep (pace_delay w1)] ++ evs').
      split.
      { rewrite Hrun. cbn [length]. do 2 f_equal. lia. }
      split.
      { rewrite Htr'. unfold paced. cbn [trace emit set_draws].
        rewrite Htr1. unfold constructed. cbn [trace emit].
        rewrite <- !app_assoc. reflexivity. }
      rewrite !transport_calls_app, Hcalls1, Hcalls'. reflexivity.
    + rewrite (dispatch_skipped _ _ _ _ _ _ _ _ _ _ Hc).
      destruct (IH success_count (skipped w)) as (w' & evs' & Hrun & Htr' & Hcalls').
      { intros j. apply Hnet. }
      exists w',
        ([EvLog INFO MSG_PROCESSING;
          EvLog ERROR (u "❌ 处理第 %d 项时出错: %s | Webhook: %s")] ++ evs').
      split; [exact Hrun|]. split.
      { rewrite Htr'. unfold skipped. cbn [trace emit].
        rewrite <- !app_assoc. reflexivity. }
      rewrite transport_calls_app, Hcalls'. reflexivity.
Qed.

(** X9.  When the validator accepts the image URL and the transport
    accepts every call, the loop makes exactly one call for each
    destination whose webhook holds "access_token", in the order of the
    configuration, and counts each of them as a success. *)
Theorem dispatch_all_accepted img_url config success_count w reason :
  fst (validate_image_url img_url w) = Ok (true, reason) ->
  (forall k, failed (net w k) = false) ->
  Forall complete config ->
  let run := dispatch img_url config success_count w in
  fst run = Ok (success_count + length (reachable config))%nat /\
  transport_calls (added w (snd run)) =
    omap (call_for img_url) (reachable config).
Proof.
  rewrite validate_image_url_eval. cbn [fst]. intros [= Hvalid] Hnet Hconfig.
  assert (Hv : fst (validation img_url) = true) by (by rewrite Hvalid).
  destruct (dispatch_accepted img_url config Hv Hconfig success_count w Hnet)
    as (w' & evs & Hrun & Htr & Hcalls).
  rewrite Hrun. cbn [fst snd]. by rewrite (added_app _ _ _ Htr).
Qed.

Lemma dispatch_all_accepted_witness :
  let config :=
    [sample_destination good_webhook; sample_destination bad_webhook;
     sample_destination good_webhook] in
  let w := sample_world ∅ Config.Missing (always accepts) in
  let call :=
    EvCall (Chatbot.Build good_webhook None)
      (Chatbot.send_markdown DEFAULT_TITLE
         (u "Today: https://cdn.example.com/a.jpg") (Some []) false) in
  fst (validate_image_url sample_url w) = Ok (true, MSG_PASSED) /\
  (forall k, failed (net w k) = false) /\
  Forall complete config /\
  fst (dispatch sample_url config 0 w) = Ok 2%nat /\
  transport_calls (added w (snd (dispatch sample_url config 0 w))) =
    [call; call].
Proof.
  intros config w call.
  assert (H1 : fst (validate_image_url sample_url w) = Ok (true, MSG_PASSED))
    by (vm_compute; reflexivity).
  assert (H2 : forall k, failed (net w k) = false) by (intros k; reflexivity).
  assert (H3 : Forall complete config) by (repeat constructor).
  split; [exact H1|]. split; [exact H2|]. split; [exact H3|].
  destruct (dispatch_all_accepted sample_url config 0 w _ H1 H2 H3)
    as [Hcount Hcalls].
  split.
  - rewrite Hcount. vm_compute. reflexivity.
  - rewrite Hcalls. vm_compute. reflexivity.
Defined.

End DispatchMore.

(* ===================================================================== *)
(** * Further properties of [load_config] *)
(* ===================================================================== *)

Section ConfigMore.

Implicit Types (w : world) (entries : list Config.entry).

Lemma warnings_quiet evs :
  Forall (fun e => is_warning e = true) evs ->
  effects evs = [] /\ List.filter is_warning evs = evs.
Proof.
  induction 1 as [|e evs He _ [IH1 IH2]]; [done|].
  destruct e as [lvl fmt| | | | |]; try discriminate.
  unfold effects in *. cbn [List.filter is_log negb].
  rewrite IH1, He, IH2. done.
Qed.

(** The loop of [load_config]: what it returns and what it logs. *)
Lemma validate_items_shape entries : forall valid w,
  exists w' evs,
    validate_items entries valid w =
      (Ok (valid ++ omap accepted_item entries), w') /\
    trace w' = trace w ++ evs /\
    Forall (fun e => is_warning e = true) evs /\
    (length evs + length (omap accepted_item entries) = length entries)%nat /\
    stable w w' /\ calls w' = calls w /\ draws w' = draws w.
Proof.
  induction entries as [|e entries IH]; intros valid w.
  - exists w, []. cbn [validate_items omap list_omap]. rewrite !app_nil_r.
    split; [reflexivity|]. split; [reflexivity|]. split; [constructor|].
    split; [reflexivity|]. split; [apply stable_refl|done].
  - destruct e as [|item].
    + cbn [validate_items]. rewrite bind_log.
      destruct (IH valid (emit (EvLog WARNING (u "⚠️ 第 %d 项不是字典格式，已跳过")) w))
        as (w' & evs & Hrun & Htr & Hall & Hlen & Hs & Hc & Hd).
      exists w', (EvLog WARNING (u "⚠️ 第 %d 项不是字典格式，已跳过") :: evs).
      split; [exact Hrun|]. split.
      { rewrite Htr. cbn [trace emit]. by rewrite <- app_assoc. }
      split; [by constructor|]. split.
      { cbn [length omap list_omap accepted_item]. lia. }
      split; [|by split].
      eapply stable_trans; [apply stable_emit|exact Hs].
    + cbn [validate_items omap list_omap accepted_item].
      destruct (missing_fields item).
      * destruct (IH (valid ++ [with_defaults item]) w)
          as (w' & evs & Hrun & Htr & Hall & Hlen & Hs & Hc & Hd).
        exists w', evs. rewrite Hrun, <- app_assoc.
        split; [reflexivity|]. split; [exact Htr|]. split; [exact Hall|].
        split; [cbn [length]; lia|]. by split.
      * rewrite bind_log.
        destruct (IH valid (emit (EvLog WARNING (u "⚠️ 第 %d 项缺少字段: %s，已跳过")) w))
          as (w' & evs & Hrun & Htr & Hall & Hlen & Hs & Hc & Hd).
        exists w', (EvLog WARNING (u "⚠️ 第 %d 项缺少字段: %s，已跳过") :: evs).
        split; [exact Hrun|]. split.
        { rewrite Htr. cbn [trace emit]. by rewrite <- app_assoc. }
        split; [by constructor|]. split; [cbn [length]; lia|].
        split; [|by split].
        eapply stable_trans; [apply stable_emit|exact Hs].
Qed.

Lemma load_config_shape w entries :
  config_file w = Config.Entries entries ->
  exists w' evs,
    load_config w = (Ok (omap accepted_item entries), w') /\
    trace w' =
      trace w ++ evs ++ [EvLog INFO (u "✅ 成功加载 %d/%d 个有效配置项")] /\
    Forall (fun e => is_warning e = true) evs /\
    (length evs + length (omap accepted_item entries) = length entries)%nat /\
    stable w w' /\ calls w' = calls w.
Proof.
  intros Hsrc. unfold load_config. rewrite Hsrc.
  destruct (validate_items_shape entries [] w)
    as (w1 & evs & Hrun & Htr & Hall & Hlen & Hs & Hc & _).
  rewrite (bind_ok _ _ _ _ _ Hrun), bind_log. cbn [app].
  exists (emit (EvLog INFO (u "✅ 成功加载 %d/%d 个有效配置项")) w1), evs.
  split; [reflexivity|]. split.
  { cbn [trace emit]. by rewrite Htr, <- app_assoc. }
  split; [exact Hall|]. split; [exact Hlen|]. split; [|exact Hc].
  eapply stable_trans; [exact Hs|apply stable_emit].
Qed.

Lemma load_config_calls w :
  exists r w' evs,
    load_config w = (r, w') /\ trace w' = trace w ++ evs /\
    effects evs = [] /\ stable w w' /\ calls w' = calls w.
Proof.
  destruct (config_file w) as [| | |entries] eqn:Hsrc.
  4: { destruct (load_config_shape w entries Hsrc)
         as (w' & evs & Hrun & Htr & Hall & _ & Hs & Hc).
       exists (Ok (omap accepted_item entries)), w',
         (evs ++ [EvLog INFO (u "✅ 成功加载 %d/%d 个有效配置项")]).
       split; [exact Hrun|]. split; [exact Htr|]. split; [|by split].
       rewrite effects_app. by destruct (warnings_quiet evs Hall) as [-> _]. }
  all: unfold load_config; rewrite Hsrc; eexists _, w, [];
    rewrite app_nil_r; (split; [reflexivity|]);
    (split; [reflexivity|]); (split; [reflexivity|]);
    (split; [apply stable_refl|reflexivity]).
Qed.

(** X10.  From a configuration file that holds a list, [load_config]
    returns, in the order of the file, the entries that are objects with
    the keys "webhook", "secret" and "template", each with all six keys
    after the defaults are filled in.  Every other entry is skipped with
    one warning.  The load does nothing but log: no file is changed, no
    call is made and nothing sleeps. *)
Theorem load_config_keeps_valid_entries w entries :
  config_file w = Config.Entries entries ->
  let w' := snd (load_config w) in
  fst (load_config w) = Ok (omap accepted_item entries) /\
  Forall complete (omap accepted_item entries) /\
  (length (List.filter is_warning (added w w')) +
   length (omap accepted_item entries) = length entries)%nat /\
  effects (added w w') = [] /\
  fs w' = fs w /\ calls w' = calls w.
Proof.
  intros Hsrc.
  destruct (load_config_shape w entries Hsrc)
    as (w' & evs & Hrun & Htr & Hall & Hlen & (Hfs & _) & Hc).
  rewrite Hrun. cbn [fst snd]. rewrite (added_app _ _ _ Htr).
  destruct (warnings_quiet evs Hall) as [Hquiet Hwarn].
  split; [reflexivity|]. split.
  { apply (valid_config_complete (Config.Entries entries)). reflexivity. }
  split.
  { rewrite List.filter_app, Hwarn. cbn [List.filter is_warning].
    rewrite app_nil_r. exact Hlen. }
  split; [|by split].
  rewrite effects_app, Hquiet. reflexivity.
Qed.

Lemma load_config_keeps_valid_entries_witness :
  let partial :=
    {| Config.webhook := Some good_webhook; Config.secret := Some None;
       Config.template := Some (u "Today: {IMAGE_URL}");
       Config.title := None; Config.at_mobiles := None;
       Config.is_at_all := None |} in
  let no_secret :=
    {| Config.webhook := Some good_webhook; Config.secret := None;
       Config.template := Some (u "Today: {IMAGE_URL}");
       Config.title := None; Config.at_mobiles := None;
       Config.is_at_all := None |} in
  let entries :=
    [Config.NotADict; Config.Object partial; Config.Object no_secret] in
  let w := sample_world ∅ (Config.Entries entries) (always accepts) in
  config_file w = Config.Entries entries /\
  fst (load_config w) = Ok [sample_destination good_webhook] /\
  length (List.filter is_warning (added w (snd (load_config w)))) = 2%nat.
Proof.
  intros partial no_secret entries w.
  assert (H : config_file w = Config.Entries entries) by reflexivity.
  split; [exact H|].
  destruct (load_config_keeps_valid_entries w entries H)
    as (Hrun & _ & Hlen & _).
  split.
  - rewrite Hrun. vm_compute. reflexivity.
  - change (length (omap accepted_item entries)) with 1%nat in Hlen.
    change (length entries) with 3%nat in Hlen. lia.
Defined.

Lemma validate_items_complete config :
  Forall complete config ->
  forall valid w,
    validate_items (map Config.Object config) valid w =
      (Ok (valid ++ config), w).
Proof.
  induction 1 as [|item rest Hitem _ IH]; intros valid w.
  - cbn [map validate_items]. by rewrite app_nil_r.
  - destruct Hitem as [webhook secret template title at_mobiles is_at_all].
    cbn [map validate_items]. unfold missing_fields, destination.
    cbn [Config.webhook Config.secret Config.template app].
    rewrite IH, <- app_assoc. reflexivity.
Qed.

(** X11.  A configuration in which every entry already has all six keys
    is returned as it is, and without a warning: the only thing the load
    adds to the log is its summary line. *)
Theorem load_config_identity w config :
  Forall complete config ->
  config_file w = Config.Entries (map Config.Object config) ->
  load_config w =
    (Ok config,
     emit (EvLog INFO (u "✅ 成功加载 %d/%d 个有效配置项")) w).
Proof.
  intros Hconfig Hsrc. unfold load_config. rewrite Hsrc.
  rewrite (bind_ok _ _ _ _ _ (validate_items_complete config Hconfig [] w)).
  rewrite bind_log. reflexivity.
Qed.

Lemma load_config_identity_witness :
  let config :=
    [sample_destination good_webhook; sample_destination bad_webhook] in
  let w :=
    sample_world ∅ (Config.Entries (map Config.Object config))
      (always accepts) in
  Forall complete config /\
  config_file w = Config.Entries (map Config.Object config) /\
  fst (load_config w) = Ok config.
Proof.
  intros config w.
  assert (H1 : Forall complete config) by (repeat constructor).
  assert (H2 : config_file w = Config.Entries (map Config.Object config))
    by reflexivity.
  split; [exact H1|]. split; [exact H2|].
  by rewrite (load_config_identity w config H1 H2).
Defined.

End ConfigMore.

(* ===================================================================== *)
(** * Further properties of a whole run *)
(* ===================================================================== *)

Section MainMore.

Import DingTalkBotEnhanced.

Variable SCRIPT_DIR : str.

Implicit Types (w : world).

Lemma transport_calls_log lvl fmt : transport_calls [EvLog lvl fmt] = [].
Proof. reflexivity. Qed.

Lemma transport_calls_chdir path : transport_calls [EvChdir path] = [].
Proof. reflexivity. Qed.

Lemma transport_calls_logs evs :
  effects evs = [] -> transport_calls evs = [].
Proof. intros H. by rewrite <- transport_calls_effects, H. Qed.

(** The files after a pop depend on the files before it only. *)
Lemma pop_first_url_files file_path w1 w2 :
  fs w1 = fs w2 ->
  fs (snd (pop_first_url file_path w1)) = fs (snd (pop_first_url file_path w2)).
Proof.
  intros Hfs. destruct (fs w2 !! file_path) as [content|] eqn:Hfile.
  - rewrite (pop_first_url_found file_path w2 content Hfile).
    rewrite (pop_first_url_found file_path w1 content)
      by (by rewrite Hfs).
    destruct (queue_lines content); cbn [snd fs emit set_fs]; by rewrite Hfs.
  - unfold pop_first_url, bind.
    rewrite (path_exists_absent file_path w2 Hfile).
    rewrite (path_exists_absent file_path w1) by (by rewrite Hfs).
    cbn [negb snd log ret fs emit]. exact Hfs.
Qed.

Lemma pop_first_url_trace file_path w :
  exists evs,
    trace (snd (pop_first_url file_path w)) = trace w ++ evs /\
    transport_calls evs = [].
Proof.
  destruct (fs w !! file_path) as [content|] eqn:Hfile.
  - rewrite (pop_first_url_found _ _ _ Hfile).
    destruct (queue_lines content) as [|current_url remaining];
      cbn [snd trace emit set_fs].
    + by eexists [_].
    + exists [EvWrite (file_path ++ u ".tmp") (queue_text remaining);
              EvReplace (file_path ++ u ".tmp") file_path;
              EvLog INFO (u "✅ 已弹出URL: %s | 剩余: %d")].
      rewrite <- !app_assoc. split; reflexivity.
  - unfold pop_first_url, bind. rewrite (path_exists_absent _ _ Hfile).
    cbn [negb snd log ret trace emit]. by eexists [_].
Qed.

Lemma pop_first_url_shape file_path w :
  exists w' evs,
    pop_first_url file_path w = (Ok (queue_head (fs w) file_path), w') /\
    trace w' = trace w ++ evs /\ transport_calls evs = [] /\
    fs w' = fs (snd (pop_first_url file_path w)) /\
    config_file w' = config_file w /\ cwd w' = cwd w /\ calls w' = calls w.
Proof.
  destruct (pop_first_url_returns file_path w) as (w' & Hpop & _).
  destruct (pop_first_url_trace file_path w) as (evs & Htr & Hq).
  pose proof (pop_first_url_frame file_path w) as Hframe.
  cbv zeta in Hframe. rewrite Hpop in Htr, Hframe. cbn [snd] in Htr, Hframe.
  destruct Hframe as (Hcfg & Hcwd & _ & _ & Hc & _).
  exists w', evs. rewrite Hpop. cbn [snd]. done.
Qed.

(** What a run leaves behind, whichever way it ends. *)
Lemma run_shape w :
  exists r w' evs,
    run SCRIPT_DIR w = (r, w') /\
    trace w' = trace w ++ evs /\
    fs w' = fs (snd (pop_first_url (IMAGE_URL_FILE SCRIPT_DIR) w)) /\
    cwd w' = cwd w /\
    calls w' = (calls w + length (transport_calls evs))%nat /\
    match queue_head (fs w) (IMAGE_URL_FILE SCRIPT_DIR),
          valid_config (config_file w) with
    | Some img_url, Some config =>
        Forall (fun e => exists item,
                  item ∈ reachable config /\ call_for img_url item = Some e)
          (transport_calls evs) /\
        (length (transport_calls evs) <= 3 * length (reachable config))%nat
    | _, _ => transport_calls evs = []
    end.
Proof.
  unfold run. rewrite bind_log.
  destruct (pop_first_url_shape (IMAGE_URL_FILE SCRIPT_DIR)
              (emit (EvLog INFO (u "🚀 钉钉每日推送脚本启动")) w))
    as (w2 & evs2 & Hpop & Htr2 & Hq2 & Hfs2 & Hcfg2 & Hcwd2 & Hc2).
  rewrite (bind_ok _ _ _ _ _ Hpop).
  match type of Hfs2 with
  | _ = fs (snd (pop_first_url ?f ?w1)) =>
      rewrite (pop_first_url_files f w1 w eq_refl) in Hfs2
  end.
  cbn [fs config_file cwd calls trace emit] in Htr2, Hcfg2, Hcwd2, Hc2 |- *.
  clear Hpop.
  destruct (queue_head (fs w) (IMAGE_URL_FILE SCRIPT_DIR))
    as [url|] eqn:Hhead.
  2: { rewrite bind_log. eexists _, _, _. split; [reflexivity|].
       split. { cbn [trace emit]. rewrite Htr2, <- !app_assoc. reflexivity. }
       rewrite !transport_calls_app, Hq2, !transport_calls_log.
       cbn [app length fs cwd calls emit]. rewrite Nat.add_0_r. done. }
  destruct url as [|c url]; [by apply queue_head_nonempty in Hhead|].
  rewrite bind_log.
  destruct (config_file w) as [| | |entries] eqn:Hsrc; cbn [valid_config].
  4: { destruct (load_config_shape
                   (emit (EvLog INFO (u "🎯 本次运行统一使用图片URL: %s")) w2)
                   entries Hcfg2)
         as (w3 & evs3 & Hload & Htr3 & Hall3 & _ & Hs3 & Hc3).
       rewrite (bind_ok _ _ _ _ _ Hload).
       destruct (warnings_quiet evs3 Hall3) as [Hq3%transport_calls_logs _].
       destruct Hs3 as (Hfs3 & _ & Hcwd3 & _).
       cbn [fs cwd calls trace emit] in Htr3, Hfs3, Hcwd3, Hc3.
       pose proof (valid_config_complete (Config.Entries entries) _ eq_refl)
         as Hcomplete.
       destruct (omap accepted_item entries) as [|item rest].
       - rewrite bind_log. eexists _, _, _. split; [reflexivity|].
         split.
         { cbn [trace emit]. rewrite Htr3, Htr2, <- !app_assoc. reflexivity. }
         rewrite !transport_calls_app, Hq2, Hq3, !transport_calls_log.
         cbn [app length fs cwd calls emit]. rewrite Nat.add_0_r.
         split; [congruence|]. split; [congruence|]. split; [congruence|].
         split; [constructor|lia].
       - destruct (dispatch_shape (c :: url) (item :: rest) Hcomplete 0%nat w3)
           as (count & w4 & evs4 & Hrun & Htr4 & Hall4 & Hc4 & Hlen4 & _).
         rewrite (bind_ok _ _ _ _ _ Hrun), bind_log.
         destruct (dispatch_returns (c :: url) (item :: rest) Hcomplete 0%nat w3)
           as (count' & w4' & Hrun' & (Hfs4 & _ & Hcwd4 & _) & _).
         rewrite Hrun in Hrun'. injection Hrun' as <- <-.
         destruct (count <? length (item :: rest))%nat.
         + rewrite !bind_log. eexists _, _, _. split; [reflexivity|].
           split.
           { cbn [trace emit]. rewrite Htr4, Htr3, Htr2, <- !app_assoc.
             reflexivity. }
           rewrite !transport_calls_app, Hq2, Hq3, !transport_calls_log.
           cbn [app fs cwd calls emit]. rewrite app_nil_r.
           split; [congruence|]. split; [congruence|].
           split; [lia|]. by split.
         + rewrite bind_ret, !bind_log. eexists _, _, _.
           split; [reflexivity|]. split.
           { cbn [trace emit]. rewrite Htr4, Htr3, Htr2, <- !app_assoc.
             reflexivity. }
           rewrite !transport_calls_app, Hq2, Hq3, !transport_calls_log.
           cbn [app fs cwd calls emit]. rewrite app_nil_r.
           split; [congruence|]. split; [congruence|].
           split; [lia|]. by split. }
  all: destruct (load_config_raises
                   (emit (EvLog INFO (u "🎯 本次运行统一使用图片URL: %s")) w2))
         as (e & Hraise);
    [cbn [config_file emit]; by rewrite Hcfg2|];
    rewrite (bind_raised _ _ _ _ _ Hraise); eexists _, _, _;
    (split; [reflexivity|]);
    (split; [cbn [trace emit]; rewrite Htr2, <- !app_assoc; reflexivity|]);
    rewrite !transport_calls_app, Hq2, !transport_calls_log;
    cbn [app length fs cwd calls emit]; rewrite Nat.add_0_r; done.
Qed.

Lemma main_shape w :
  exists code w' evs,
    main SCRIPT_DIR w = (code, w') /\
    trace w' = trace w ++ evs /\
    fs w' = fs (snd (pop_first_url (IMAGE_URL_FILE SCRIPT_DIR) w)) /\
    cwd w' = cwd w /\
    calls w' = (calls w + length (transport_calls evs))%nat /\
    match queue_head (fs w) (IMAGE_URL_FILE SCRIPT_DIR),
          valid_config (config_file w) with
    | Some img_url, Some config =>
        Forall (fun e => exists item,
                  item ∈ reachable config /\ call_for img_url item = Some e)
          (transport_calls evs) /\
        (length (transport_calls evs) <= 3 * length (reachable config))%nat
    | _, _ => transport_calls evs = []
    end.
Proof.
  destruct (run_shape (emit (EvChdir SCRIPT_DIR) (set_cwd SCRIPT_DIR w)))
    as (r & w' & evs & Hrun & Htr & Hfs & Hcwd & Hc & Hcalls).
  match type of Hfs with
  | _ = fs (snd (pop_first_url ?f ?w1)) =>
      rewrite (pop_first_url_files f w1 w eq_refl) in Hfs
  end.
  cbn [fs config_file cwd calls trace emit set_cwd] in Htr, Hc, Hcalls.
  unfold main, try_except, change_working_dir. rewrite Hrun.
  destruct r as [code|e]; [|rewrite bind_log]; eexists _, _, _;
    (split; [reflexivity|]);
    (split; [cbn [trace emit set_cwd]; rewrite Htr, <- !app_assoc;
             reflexivity|]);
    rewrite !transport_calls_app, ?transport_calls_log, !transport_calls_chdir;
    cbn [app fs cwd calls emit set_cwd]; rewrite app_nil_r; done.
Qed.

(** X12.  [main] ends in the working directory in which it started,
    whether the run returned or an exception escaped from it. *)
Theorem main_restores_directory w :
  cwd (snd (main SCRIPT_DIR w)) = cwd w /\
  (exists evs,
     added w (snd (main SCRIPT_DIR w)) = EvChdir SCRIPT_DIR :: evs /\
     EvChdir (cwd w) ∈ evs).
Proof.
  destruct (run_shape (emit (EvChdir SCRIPT_DIR) (set_cwd SCRIPT_DIR w)))
    as (r & w' & evs & Hrun & Htr & _).
  cbn [trace emit set_cwd] in Htr.
  unfold main, try_except, change_working_dir. rewrite Hrun.
  destruct r as [code|e]; [|rewrite bind_log]; cbn [snd cwd emit set_cwd ret];
    (split; [reflexivity|]).
  - exists (evs ++ [EvChdir (cwd w)]). split.
    + apply added_app. cbn [trace emit set_cwd].
      rewrite Htr, <- !app_assoc. reflexivity.
    + apply elem_of_app. right. apply list_elem_of_singleton. reflexivity.
  - exists (evs ++ [EvChdir (cwd w)] ++ [EvLog ERROR (u "❌ 主程序异常: %s")]).
    split.
    + apply added_app. cbn [trace emit set_cwd].
      rewrite Htr, <- !app_assoc. reflexivity.
    + apply elem_of_app. right. apply elem_of_app. left.
      apply list_elem_of_singleton. reflexivity.
Qed.

(** X13.  What a run does to the files is one pop of the queue file and
    nothing else: the line is taken off the queue before the
    configuration is read, and it stays off whatever the configuration
    holds and whatever the transport answers. *)
Theorem main_files w :
  fs (snd (main SCRIPT_DIR w)) =
  fs (snd (pop_first_url (IMAGE_URL_FILE SCRIPT_DIR) w)).
Proof.
  destruct (main_shape w) as (code & w' & evs & Hmain & _ & Hfs & _).
  rewrite Hmain. exact Hfs.
Qed.


(** X15.  A run that ends with exit code 1 has made no transport call. *)
Theorem main_failure_makes_no_call w :
  fst (main SCRIPT_DIR w) = 1%Z ->
  let w' := snd (main SCRIPT_DIR w) in
  transport_calls (added w w') = [] /\ calls w' = calls w.
Proof.
  rewrite main_code.
  destruct (main_shape w) as (code & w' & evs & Hmain & Htr & _ & _ & Hc & Hcalls).
  rewrite Hmain. cbn [snd]. rewrite (added_app _ _ _ Htr).
  intros Hcode.
  assert (Hnone : transport_calls evs = []).
  { destruct (queue_head (fs w) (IMAGE_URL_FILE SCRIPT_DIR)) as [url|];
      [|exact Hcalls].
    destruct (valid_config (config_file w)) as [[|item rest]|];
      [|discriminate|exact Hcalls].
    destruct Hcalls as [_ Hlen]. cbn in Hlen.
    destruct (transport_calls evs); [reflexivity|cbn in Hlen; lia]. }
  rewrite Hnone in Hc |- *. cbn [length] in Hc. split; [reflexivity|lia].
Qed.

End MainMore.


Lemma main_failure_makes_no_call_witness :
  let dir := u "/srv/push" in
  let w :=
    sample_world {[ IMAGE_URL_FILE dir := sample_queue ]} Config.Malformed
      (always accepts) in
  fst (main dir w) = 1%Z /\
  transport_calls (added w (snd (main dir w))) = [] /\
  fs (snd (main dir w)) !! IMAGE_URL_FILE dir =
    Some (u "https://cdn.example.com/b.jpg
").
Proof.
  intros dir w.
  assert (H : fst (main dir w) = 1%Z) by (vm_compute; reflexivity).
  split; [exact H|].
  destruct (main_failure_makes_no_call dir w H) as [Hnone _].
  split; [exact Hnone|]. vm_compute. reflexivity.
Defined.
